(** * gorouter: the request router of [router.go], embedded and verified

    The development follows the layout of the Go package.  Go strings are
    byte sequences and are modelled as lists of [ascii] characters; a
    panic is an explicit [Panic] result; the response writer is a log of
    written lines that every handler threads through. *)

From Stdlib Require Import Ascii Strings.Byte.
From stdpp Require Import gmap list.

(** ** Go strings *)

Abbreviation str := (list ascii).

(** The type the string literals are declared for. *)
Definition literal := list ascii.

Inductive istr := INil | ICons (a : ascii) (s : istr).

Fixpoint istr_of_bytes (l : list byte) : istr :=
  match l with
  | [] => INil
  | b :: r => ICons (ascii_of_byte b) (istr_of_bytes r)
  end.

Fixpoint bytes_of_istr (s : istr) : list byte :=
  match s with
  | INil => []
  | ICons a r => byte_of_ascii a :: bytes_of_istr r
  end.

Declare Scope str_scope.
Delimit Scope str_scope with str.
#[warnings="-via-type-remapping,-via-type-mismatch"] String Notation literal istr_of_bytes bytes_of_istr (via istr mapping [[nil] => INil, [cons] => ICons]) : str_scope.
Open Scope str_scope.

Definition chr_eqb (a b : ascii) : bool := Ascii.eqb a b.

(** [strings.Split(s, sep)] for a separator of one byte: the pieces of
    [s] between the occurrences of [sep]; never empty, the empty string
    gives one empty piece. *)
Fixpoint Split (sep : ascii) (s : str) : list str :=
  match s with
  | [] => [[]]
  | c :: r =>
      if chr_eqb c sep then [] :: Split sep r
      else match Split sep r with
           | [] => [[c]]
           | p :: ps => (c :: p) :: ps
           end
  end.

(** ** Panics and results *)

(** The panics of the package.  A runtime error carries the line of
    [router.go] whose index or slice expression raised it. *)
Inductive Fault :=
| ErrInvalidMethod
| ErrMethodNotRegistered
| ErrMalformedRoute
| ErrIndexOutOfRange (line : nat)
| ErrSliceBounds (line : nat)
| ErrRegexpCompile (pattern : str)
| ErrHandler (v : str).

(** The outcome of a call that may panic.  [Unmodelled] marks an input
    whose regular expression uses syntax outside the fragment of RE2
    embedded below; nothing is claimed about such inputs. *)
Inductive Res (A : Type) :=
| Ok (a : A)
| Panic (f : Fault)
| Unmodelled.
Arguments Ok {A} a.
Arguments Panic {A} f.
Arguments Unmodelled {A}.

#[global] Instance res_ret : MRet Res := fun A a => Ok a.

#[global] Instance res_bind : MBind Res := fun A B k x =>
  match x with
  | Ok a => k a
  | Panic f => Panic f
  | Unmodelled => Unmodelled
  end.

(** ** Package [regexp]: the fragment of RE2 the router relies on *)

Module Regexp.

Inductive regex :=
| REmpty
| RChar (c : ascii)
| RAny
| RClass (neg : bool) (rs : list (ascii * ascii))
| RCat (r1 r2 : regex)
| RAlt (r1 r2 : regex)
| RStar (r : regex)
| RPlus (r : regex)
| RQuest (r : regex)
| RGroup (k : nat) (r : regex).

Definition in_range (x : ascii) (p : ascii * ascii) : bool :=
  (nat_of_ascii (fst p) <=? nat_of_ascii x) && (nat_of_ascii x <=? nat_of_ascii (snd p)).

Definition in_ranges (x : ascii) (rs : list (ascii * ascii)) : bool :=
  existsb (in_range x) rs.

(** The Perl classes: [\d], [\w] and [\s]. *)
Definition digit_ranges : list (ascii * ascii) := [("0", "9")]%char.
Definition word_ranges : list (ascii * ascii) :=
  [("0", "9"); ("A", "Z"); ("_", "_"); ("a", "z")]%char.
Definition space_ranges : list (ascii * ascii) :=
  [("009", "010"); ("012", "013"); (" ", " ")]%char.

Definition is_alnum (c : ascii) : bool :=
  in_ranges c [("0", "9"); ("A", "Z"); ("a", "z")]%char.

(** The characters [regexp.QuoteMeta] escapes. *)
Definition is_meta (c : ascii) : bool :=
  existsb (chr_eqb c) "\.+*?()|[]{}^$".

(** A byte that stands for itself in a pattern. *)
Definition lit_char (c : ascii) : bool :=
  negb (is_meta c) && (nat_of_ascii c <? 128).

Fixpoint nullable (r : regex) : bool :=
  match r with
  | REmpty => true
  | RChar _ | RAny | RClass _ _ => false
  | RCat r1 r2 => nullable r1 && nullable r2
  | RAlt r1 r2 => nullable r1 || nullable r2
  | RStar _ | RQuest _ => true
  | RPlus r1 => nullable r1
  | RGroup _ r1 => nullable r1
  end.

(** *** Parsing

    The parser reads the pattern one byte at a time and keeps a stack of
    open groups, as [regexp/syntax] does. *)

Record frame := Frame {
  f_alts : list regex;   (* finished branches of the group, last first *)
  f_items : list regex;  (* the current concatenation, last first *)
  f_cap : nat            (* the capture index of the group *)
}.

Inductive cpend := PNone | PLo (c : ascii) | PDash (c : ascii).

Record cstate := CState {
  c_neg : bool;
  c_first : bool;
  c_acc : list (ascii * ascii);
  c_pend : cpend
}.

Inductive pmode :=
| MNormal
| MOpen
| MAfterRep
| MEscape
| MClassStart
| MClass (cs : cstate)
| MClassEsc (cs : cstate).

Record pstate := PState {
  p_cur : frame;
  p_stack : list frame;
  p_ncap : nat;
  p_mode : pmode
}.

Inductive presult :=
| POk (st : pstate)
| PSyntaxError
| PUnmodelled.

Fixpoint seq_of (rs : list regex) : regex :=
  match rs with
  | [] => REmpty
  | r :: rs' => RCat r (seq_of rs')
  end.

Definition close_frame (f : frame) : regex :=
  fold_left (fun acc b => RAlt b acc) (f_alts f) (seq_of (rev (f_items f))).

Definition add_item (r : regex) (f : frame) : frame :=
  Frame (f_alts f) (r :: f_items f) (f_cap f).

Definition set_mode (st : pstate) (m : pmode) : pstate :=
  PState (p_cur st) (p_stack st) (p_ncap st) m.

Definition push_item (st : pstate) (r : regex) : presult :=
  POk (PState (add_item r (p_cur st)) (p_stack st) (p_ncap st) MNormal).

Definition rep_of (c : ascii) (r : regex) : regex :=
  if chr_eqb c "*" then RStar r
  else if chr_eqb c "+" then RPlus r
  else RQuest r.

Definition is_rep (c : ascii) : bool :=
  chr_eqb c "*" || chr_eqb c "+" || chr_eqb c "?".

Definition max_nesting : nat := 1000.

Definition step_normal (st : pstate) (c : ascii) : presult :=
  let cur := p_cur st in
  if lit_char c then push_item st (RChar c)
  else if chr_eqb c "." then push_item st RAny
  else if chr_eqb c "\" then POk (set_mode st MEscape)
  else if chr_eqb c "[" then POk (set_mode st MClassStart)
  else if chr_eqb c "(" then
    if max_nesting <=? length (p_stack st) then PUnmodelled
    else POk (PState (Frame [] [] (S (p_ncap st))) (cur :: p_stack st)
                     (S (p_ncap st)) MOpen)
  else if chr_eqb c ")" then
    match p_stack st with
    | [] => PSyntaxError
    | parent :: rest =>
        POk (PState (add_item (RGroup (f_cap cur) (close_frame cur)) parent)
                    rest (p_ncap st) MNormal)
    end
  else if chr_eqb c "|" then
    POk (PState (Frame (seq_of (rev (f_items cur)) :: f_alts cur) [] (f_cap cur))
                (p_stack st) (p_ncap st) MNormal)
  else if is_rep c then
    match p_mode st with
    | MOpen => if chr_eqb c "?" then PUnmodelled else PSyntaxError
    | MAfterRep => PUnmodelled
    | _ =>
        match f_items cur with
        | [] => PSyntaxError
        | r :: rest =>
            if nullable r then PUnmodelled
            else POk (PState (Frame (f_alts cur) (rep_of c r :: rest) (f_cap cur))
                             (p_stack st) (p_ncap st) MAfterRep)
        end
    end
  else PUnmodelled.

Definition step_escape (st : pstate) (c : ascii) : presult :=
  if chr_eqb c "d" then push_item st (RClass false digit_ranges)
  else if chr_eqb c "w" then push_item st (RClass false word_ranges)
  else if chr_eqb c "s" then push_item st (RClass false space_ranges)
  else if chr_eqb c "D" then push_item st (RClass true digit_ranges)
  else if chr_eqb c "W" then push_item st (RClass true word_ranges)
  else if chr_eqb c "S" then push_item st (RClass true space_ranges)
  else if negb (is_alnum c) && (nat_of_ascii c <? 128) then push_item st (RChar c)
  else PUnmodelled.

Definition flush (cs : cstate) : list (ascii * ascii) :=
  match c_pend cs with
  | PNone => c_acc cs
  | PLo lo => (lo, lo) :: c_acc cs
  | PDash lo => ("-", "-")%char :: (lo, lo) :: c_acc cs
  end.

(** One more character of a class: a single character, or the upper end
    of a range; [None] when the range is reversed. *)
Definition class_char (cs : cstate) (c : ascii) : option cstate :=
  match c_pend cs with
  | PNone => Some (CState (c_neg cs) false (c_acc cs) (PLo c))
  | PLo lo => Some (CState (c_neg cs) false ((lo, lo) :: c_acc cs) (PLo c))
  | PDash lo =>
      if nat_of_ascii lo <=? nat_of_ascii c
      then Some (CState (c_neg cs) false ((lo, c) :: c_acc cs) PNone)
      else None
  end.

Definition class_next (st : pstate) (cs : cstate) (c : ascii) : presult :=
  match class_char cs c with
  | Some cs' => POk (set_mode st (MClass cs'))
  | None => PSyntaxError
  end.

Definition step_class (st : pstate) (cs : cstate) (c : ascii) : presult :=
  if chr_eqb c "]" && negb (c_first cs) then
    push_item st (RClass (c_neg cs) (rev (flush cs)))
  else if chr_eqb c "[" then PUnmodelled
  else if chr_eqb c "\" then
    match c_pend cs with
    | PDash _ => PUnmodelled
    | _ => POk (set_mode st (MClassEsc (CState (c_neg cs) false (flush cs) PNone)))
    end
  else if chr_eqb c "-" then
    match c_pend cs with
    | PLo lo => POk (set_mode st (MClass (CState (c_neg cs) false (c_acc cs) (PDash lo))))
    | _ => class_next st cs c
    end
  else if 128 <=? nat_of_ascii c then PUnmodelled
  else class_next st cs c.

Definition add_ranges (cs : cstate) (rs : list (ascii * ascii)) : cstate :=
  CState (c_neg cs) false (rev rs ++ c_acc cs) PNone.

Definition step_class_escape (st : pstate) (cs : cstate) (c : ascii) : presult :=
  if chr_eqb c "d" then POk (set_mode st (MClass (add_ranges cs digit_ranges)))
  else if chr_eqb c "w" then POk (set_mode st (MClass (add_ranges cs word_ranges)))
  else if chr_eqb c "s" then POk (set_mode st (MClass (add_ranges cs space_ranges)))
  else if negb (is_alnum c) && (nat_of_ascii c <? 128) then class_next st cs c
  else PUnmodelled.

Definition step (st : pstate) (c : ascii) : presult :=
  match p_mode st with
  | MNormal | MOpen | MAfterRep => step_normal st c
  | MEscape => step_escape st c
  | MClassStart =>
      if chr_eqb c "^" then POk (set_mode st (MClass (CState true true [] PNone)))
      else step_class st (CState false true [] PNone) c
  | MClass cs => step_class st cs c
  | MClassEsc cs => step_class_escape st cs c
  end.

Fixpoint parse_loop (st : pstate) (s : str) : presult :=
  match s with
  | [] => POk st
  | c :: r =>
      match step st c with
      | POk st' => parse_loop st' r
      | e => e
      end
  end.

Definition init_state : pstate := PState (Frame [] [] 0) [] 0 MNormal.

(** A compiled expression: its syntax tree and its number of groups. *)
Record Regexp := MkRegexp { re_tree : regex; re_ncap : nat }.

(** What the end of the pattern makes of the parser's state. *)
Definition finish (st : pstate) : Res Regexp :=
  match p_mode st with
  | MNormal | MOpen | MAfterRep =>
      match p_stack st with
      | [] => Ok (MkRegexp (close_frame (p_cur st)) (p_ncap st))
      | _ :: _ => Panic (ErrRegexpCompile [])
      end
  | _ => Panic (ErrRegexpCompile [])
  end.

(** [regexp.MustCompile]: panics on a syntax error. *)
Definition MustCompile (pattern : str) : Res Regexp :=
  match parse_loop init_state pattern with
  | POk st =>
      match finish st with
      | Panic _ => Panic (ErrRegexpCompile pattern)
      | r => r
      end
  | PSyntaxError => Panic (ErrRegexpCompile pattern)
  | PUnmodelled => Unmodelled
  end.

(** *** Matching

    A backtracking matcher in continuation-passing style: the first
    successful path is the leftmost-first match of RE2.  [caps] holds the
    text last captured by each group. *)

Definition captures := list (option str).

Definition set_cap (k : nat) (v : str) (caps : captures) : captures :=
  <[pred k := Some v]> caps.

Section Matcher.
Context {R : Type}.

Definition cont := str -> captures -> option R.
Definition matcher := str -> captures -> cont -> option R.

(** Greedy iteration of [body]; an iteration that consumes nothing
    ends the loop. *)
Fixpoint star_loop (body : matcher) (fuel : nat) (s : str) (caps : captures)
    (k : cont) : option R :=
  match fuel with
  | 0 => k s caps
  | S n =>
      match body s caps (fun s' caps' =>
              if length s' <? length s then star_loop body n s' caps' k
              else None) with
      | Some x => Some x
      | None => k s caps
      end
  end.

Fixpoint rmatch (r : regex) (s : str) (caps : captures) (k : cont) : option R :=
  match r with
  | REmpty => k s caps
  | RChar c =>
      match s with
      | x :: s' => if chr_eqb x c then k s' caps else None
      | [] => None
      end
  | RAny =>
      match s with
      | x :: s' => if chr_eqb x "010" then None else k s' caps
      | [] => None
      end
  | RClass neg rs =>
      match s with
      | x :: s' => if xorb neg (in_ranges x rs) then k s' caps else None
      | [] => None
      end
  | RCat r1 r2 => rmatch r1 s caps (fun s' caps' => rmatch r2 s' caps' k)
  | RAlt r1 r2 =>
      match rmatch r1 s caps k with
      | Some x => Some x
      | None => rmatch r2 s caps k
      end
  | RStar r1 => star_loop (rmatch r1) (length s) s caps k
  | RPlus r1 =>
      rmatch r1 s caps (fun s' caps' =>
        star_loop (rmatch r1) (length s') s' caps' k)
  | RQuest r1 =>
      match rmatch r1 s caps k with
      | Some x => Some x
      | None => k s caps
      end
  | RGroup i r1 =>
      rmatch r1 s caps (fun s' caps' =>
        k s' (set_cap i (take (length s - length s') s) caps'))
  end.
End Matcher.

(** The search tries every start position from the left. *)
Fixpoint find_from (re : Regexp) (s : str) : option (str * captures) :=
  match rmatch (re_tree re) s (replicate (re_ncap re) None)
               (fun s' caps => Some (s', caps)) with
  | Some (s', caps) => Some (take (length s - length s') s, caps)
  | None =>
      match s with
      | [] => None
      | _ :: r => find_from re r
      end
  end.

(** Whether the expression consumes runes the byte-wise matcher cannot
    tell apart: [.] and negated classes match a whole UTF-8 sequence. *)
Fixpoint rune_sensitive (r : regex) : bool :=
  match r with
  | REmpty | RChar _ => false
  | RAny => true
  | RClass neg _ => neg
  | RCat r1 r2 | RAlt r1 r2 => rune_sensitive r1 || rune_sensitive r2
  | RStar r1 | RPlus r1 | RQuest r1 | RGroup _ r1 => rune_sensitive r1
  end.

Definition all_ascii (s : str) : bool :=
  forallb (fun c => nat_of_ascii c <? 128) s.

(** [Regexp.FindSubmatch]: the leftmost match and the text of each
    group ([None] for a group that took no part, a nil slice in Go), or
    [None] when nothing matches.  The pair stands for the slice
    [subMatch]: its first component is [subMatch[0]], the second
    [subMatch[1:]]. *)
Definition FindSubmatch (re : Regexp) (b : str) : Res (option (str * captures)) :=
  if rune_sensitive (re_tree re) && negb (all_ascii b) then Unmodelled
  else Ok (find_from re b).

End Regexp.

(** ** [router.go] *)

Definition defaultPattern : str := "[\w]+".
Definition idPattern : str := "[\d]+".
Definition idKey : str := "id".

Abbreviation paramsMapType := (gmap str str).

(** The slice expression [str[1 : strLen-1]]. *)
Definition inner (s : str) : str := take (length s - 2) (drop 1 s).

(** One round of the loop of [matchAndParse] over the segments of the
    route path: [acc] is the pair of [matchName] and [sTemp]. *)
Definition segment_step (acc : list str * str) (seg : str) : Res (list str * str) :=
  let '(matchName, sTemp) := acc in
  match seg with
  | [] => Ok acc
  | firstChar :: _ =>
      let lastChar := List.last seg firstChar in
      if chr_eqb firstChar "{" && chr_eqb lastChar "}" then
        let res := Split ":" (inner seg) in
        match res !! 1 with
        | None => Panic (ErrIndexOutOfRange 252)
        | Some frag =>
            Ok (matchName ++ [List.hd [] res], sTemp ++ "/" ++ "(" ++ frag ++ ")")
        end
      else if chr_eqb firstChar ":" then
        let res := Split ":" seg in
        match res !! 1 with
        | None => Panic (ErrIndexOutOfRange 256)
        | Some name =>
            if decide (name = idKey)
            then Ok (matchName ++ [name], sTemp ++ "/" ++ "(" ++ idPattern ++ ")")
            else Ok (matchName ++ [name], sTemp ++ "/" ++ "(" ++ defaultPattern ++ ")")
        end
      else Ok (matchName, sTemp ++ "/" ++ seg)
  end.

Fixpoint build_pattern (acc : list str * str) (segs : list str) : Res (list str * str) :=
  match segs with
  | [] => Ok acc
  | seg :: rest => acc' ← segment_step acc seg; build_pattern acc' rest
  end.

(** The loop that fills [matchParams]: [matchName[k]] is out of range
    when the expression has more groups than the path has parameters. *)
Fixpoint bind_params (matchName : list str) (subMatch : list (option str))
    (matchParams : paramsMapType) : Res paramsMapType :=
  match subMatch with
  | [] => Ok matchParams
  | v :: vs =>
      match matchName with
      | [] => Panic (ErrIndexOutOfRange 277)
      | n :: ns => bind_params ns vs (<[n := default [] v]> matchParams)
      end
  end.

(** [matchAndParse]: [Ok (Some m)] is the pair [(m, true)] and [Ok None]
    the pair [(nil, false)]. *)
Definition matchAndParse (requestUrl path : str) : Res (option paramsMapType) :=
  '(matchName, pattern) ← build_pattern ([], []) (Split "/" path);
  re ← Regexp.MustCompile pattern;
  subMatch ← Regexp.FindSubmatch re requestUrl;
  match subMatch with
  | Some (whole, groups) =>
      if decide (whole = requestUrl)
      then m ← bind_params matchName groups ∅; Ok (Some m)
      else Ok None
  | None => Ok None
  end.

Definition Match (requestUrl path : str) : Res bool :=
  r ← matchAndParse requestUrl path; Ok (bool_decide (is_Some r)).

(** ** Requests, handlers and middleware *)

(** A request: its method, [r.URL.Path], and the value its context
    holds under [contextKey] ([None]: no value). *)
Record Request := MkRequest {
  Method : str;
  URLPath : str;
  ctxParams : option paramsMapType
}.

(** The [http.ResponseWriter], as the lines written to it so far. *)
Definition Log := list str.

(** Code of the caller: it writes to the response and may panic with a
    value of its own. *)
Definition UserCode := Log -> Log * option str.

Definition HandlerFunc := Request -> UserCode.
Definition MiddlewareType := HandlerFunc -> HandlerFunc.

Definition WithParams (r : Request) (m : paramsMapType) : Request :=
  MkRequest (Method r) (URLPath r) (Some m).

Definition GetAllParams (r : Request) : option paramsMapType := ctxParams r.

(** Indexing a nil map gives the zero value. *)
Definition GetParam (r : Request) (key : str) : str :=
  match GetAllParams r with
  | Some values => default [] (values !! key)
  | None => []
  end.

(** ** The route tree *)

Module RouteTree.

(** Modelled from the spec: the node type of the tree ([Node]) is not
    among the sources; [ServeHTTP] reads its fields [path], [handle] and
    [middleware], the route of section 3 of the specification. *)
Record Node := MkNode {
  node_path : str;
  node_handle : option HandlerFunc;
  node_middleware : list MiddlewareType
}.

(** Modelled from the spec: the type [Tree] is not among the sources.
    Section 4.2: an index by full path for the pattern-free routes, and
    the routes bucketed by first segment, in registration order. *)
Record Tree := MkTree {
  exact : gmap str Node;
  buckets : gmap str (list Node)
}.

(** Modelled from the spec: [NewTree] is not among the sources; a tree
    holding no route. *)
Definition NewTree : Tree := MkTree ∅ ∅.

Definition is_braced (seg : str) : bool :=
  match seg with
  | [] => false
  | firstChar :: _ => chr_eqb firstChar "{" && chr_eqb (List.last seg firstChar) "}"
  end.

Definition is_colon (seg : str) : bool :=
  match seg with
  | [] => false
  | firstChar :: _ => chr_eqb firstChar ":"
  end.

(** Modelled from the spec: the check of section 4.1 that the missing
    [Add] runs on each segment.  A braced token without a colon and a
    colon token without a name are malformed. *)
Definition malformed (seg : str) : bool :=
  if is_braced seg then negb (existsb (chr_eqb ":") (inner seg))
  else if is_colon seg then bool_decide (List.tl seg = [])
  else false.

(** Modelled from the spec: a path is pattern-free when none of its
    segments is a parameter token (section 4.2). *)
Definition pattern_free (path : str) : bool :=
  forallb (fun seg => negb (is_braced seg || is_colon seg)) (Split "/" path).

(** Modelled from the spec: the first segment of a path, the key of its
    bucket; empty segments are skipped (section 4.1). *)
Definition first_segment (path : str) : str :=
  List.hd [] (filter (fun seg => seg ≠ []) (Split "/" path)).

(** Modelled from the spec: [Tree.Add] is not among the sources.
    Section 4.2: the path is compiled, which raises the malformed-route
    error of section 4.1; the route enters the bucket of its first
    segment, and a pattern-free route also enters the index by full
    path, replacing the route registered there before. *)
Definition Add (tree : Tree) (path : str) (handle : option HandlerFunc)
    (middleware : list MiddlewareType) : Res Tree :=
  if existsb malformed (Split "/" path) then Panic ErrMalformedRoute
  else
    let node := MkNode path handle middleware in
    let key := first_segment path in
    Ok (MkTree
          (if pattern_free path then <[path := node]> (exact tree) else exact tree)
          (<[key := default [] (buckets tree !! key) ++ [node]]> (buckets tree))).

(** Modelled from the spec: [Tree.Find] is not among the sources.
    Section 4.2: mode 0 gives the route whose full path is the key, if
    any; the other mode gives the routes of the bucket of the key, in
    registration order.  A lookup never panics. *)
Definition Find (tree : Tree) (key : str) (mode : nat) : list Node :=
  match mode with
  | 0 => option_list (exact tree !! key)
  | _ => default [] (buckets tree !! key)
  end.

End RouteTree.
Export RouteTree.

(** ** The router *)

Definition methods : gmap str bool :=
  {[ "GET" := true; "POST" := true; "PUT" := true; "DELETE" := true;
     "PATCH" := true ]}.

(** The fields of [Router] but [trees]: the map of trees is shared by a
    router and its groups and is passed along with the router. *)
Record Router := MkRouter {
  prefix : str;
  middleware : list MiddlewareType;
  notFound : option HandlerFunc;
  PanicHandler : option (Request -> Fault -> UserCode)
}.

Definition New : Router * gmap str Tree := (MkRouter [] [] None None, ∅).

Definition Group (router : Router) (prefix : str) : Router :=
  MkRouter prefix (middleware router) None None.

Definition NotFoundFunc (router : Router) (handler : option HandlerFunc) : Router :=
  MkRouter (prefix router) (middleware router) handler (PanicHandler router).

(** Lines 105 to 107: the path handed to [Add]. *)
Definition routed_path (router : Router) (path : str) : str :=
  if decide (prefix router = []) then path else prefix router ++ "/" ++ path.

(** [Handle]: a panic leaves the setup, so no map of trees is returned
    with it. *)
Definition Handle (router : Router) (trees : gmap str Tree) (method path : str)
    (handle : option HandlerFunc) : Res (gmap str Tree) :=
  match methods !! method with
  | None => Panic ErrInvalidMethod
  | Some _ =>
      let root := default NewTree (trees !! method) in
      root' ← Add root (routed_path router path) handle (middleware router);
      Ok (<[method := root']> trees)
  end.

Definition GET router trees path handle := Handle router trees "GET" path handle.
Definition POST router trees path handle := Handle router trees "POST" path handle.
Definition DELETE router trees path handle := Handle router trees "DELETE" path handle.
Definition PUT router trees path handle := Handle router trees "PUT" path handle.
Definition PATCH router trees path handle := Handle router trees "PATCH" path handle.

Definition Use (router : Router) (mws : list MiddlewareType) : Router :=
  match mws with
  | [] => router
  | _ :: _ =>
      MkRouter (prefix router) (middleware router ++ mws) (notFound router)
               (PanicHandler router)
  end.

(** The loop of [handle]: every middleware wraps what was built so far. *)
Definition compose (middleware : list MiddlewareType) (handler : HandlerFunc) : HandlerFunc :=
  fold_left (fun baseHandler m => m baseHandler) middleware handler.

Definition handle (r : Request) (handler : HandlerFunc)
    (middleware : list MiddlewareType) : UserCode :=
  compose middleware handler r.

(** [http.NotFound]. *)
Definition NotFound : HandlerFunc :=
  fun _ log => (log ++ ["404 page not found"], None).

Definition HandleNotFound (router : Router) (r : Request)
    (middleware : list MiddlewareType) : UserCode :=
  match notFound router with
  | Some h => handle r h middleware
  | None => NotFound r
  end.

(** What a run of the body of [ServeHTTP] leaves: the request variable
    [r], which the deferred function reads, the response, and how the
    body ended. *)
Definition Outcome : Type := Request * Log * Res unit.

Definition run_user (r : Request) (code : UserCode) (log : Log) : Outcome :=
  let '(log', p) := code log in
  (r, log', match p with Some v => Panic (ErrHandler v) | None => Ok tt end).

(** Lines 154 to 168; [None]: the block fell through. *)
Definition exact_block (requestUrl : str) (r : Request) (nodes : list Node)
    (log : Log) : option Outcome :=
  match nodes with
  | [] => None
  | node :: _ =>
      match node_handle node with
      | None => None
      | Some h =>
          if decide (node_path node = requestUrl)
          then Some (run_user r (handle r h (node_middleware node)) log)
          else match requestUrl with
               | [] => Some (r, log, Panic (ErrSliceBounds 163))
               | _ :: rest =>
                   if decide (node_path node = rest)
                   then Some (run_user r (handle r h (node_middleware node)) log)
                   else None
               end
      end
  end.

(** The loop of lines 176 to 188; [None]: no candidate returned. *)
Fixpoint try_candidates (requestUrl : str) (r : Request) (nodes : list Node)
    (log : Log) : option Outcome :=
  match nodes with
  | [] => None
  | node :: rest =>
      match node_handle node with
      | Some handler =>
          if decide (node_path node ≠ requestUrl) then
            match matchAndParse requestUrl (node_path node) with
            | Ok (Some matchParamsMap) =>
                let r' := WithParams r matchParamsMap in
                Some (run_user r' (handle r' handler (node_middleware node)) log)
            | Ok None => try_candidates requestUrl r rest log
            | Panic f => Some (r, log, Panic f)
            | Unmodelled => Some (r, log, Unmodelled)
            end
          else try_candidates requestUrl r rest log
      | None => try_candidates requestUrl r rest log
      end
  end.

(** The body of [ServeHTTP], without the deferred function. *)
Definition serve (router : Router) (trees : gmap str Tree) (r : Request)
    (log : Log) : Outcome :=
  let requestUrl := URLPath r in
  match trees !! Method r with
  | None => (r, log, Panic ErrMethodNotRegistered)
  | Some tree =>
      let nodes := Find tree requestUrl 0 in
      let not_found := run_user r (HandleNotFound router r (middleware router)) log in
      match exact_block requestUrl r nodes log with
      | Some out => out
      | None =>
          match nodes with
          | [] =>
              match Split "/" requestUrl !! 1 with
              | None => (r, log, Panic (ErrIndexOutOfRange 172))
              | Some prefix =>
                  match try_candidates requestUrl r (Find tree prefix 1) log with
                  | Some out => out
                  | None => not_found
                  end
              end
          | _ :: _ => not_found
          end
      end
  end.

(** [ServeHTTP]: the body, and the deferred function that hands a panic
    to [PanicHandler] when one is installed. *)
Definition ServeHTTP (router : Router) (trees : gmap str Tree) (r : Request)
    (log : Log) : Log * Res unit :=
  let '(r', log', res) := serve router trees r log in
  match res, PanicHandler router with
  | Panic err, Some ph =>
      let '(log'', p) := ph r' err log' in
      (log'', match p with Some v => Panic (ErrHandler v) | None => Ok tt end)
  | _, _ => (log', res)
  end.

(** ** Setup: a sequence of registrations on one map of trees *)

Record Registration := MkReg {
  reg_router : Router;
  reg_method : str;
  reg_path : str;
  reg_handle : option HandlerFunc
}.

(** The path the route is stored under. *)
Definition full_path (g : Registration) : str :=
  routed_path (reg_router g) (reg_path g).

Fixpoint register_all (trees : gmap str Tree) (regs : list Registration)
    : Res (gmap str Tree) :=
  match regs with
  | [] => Ok trees
  | g :: rest =>
      trees' ← Handle (reg_router g) trees (reg_method g) (reg_path g) (reg_handle g);
      register_all trees' rest
  end.

(** ** Invariants of the setup *)

(** No segment of the path is malformed. *)
Definition well_formed (path : str) : Prop :=
  existsb malformed (Split "/" path) = false.

Definition tree_wf (tree : Tree) : Prop :=
  ∀ key nodes node, buckets tree !! key = Some nodes -> node ∈ nodes ->
                    well_formed (node_path node).

Definition trees_wf (trees : gmap str Tree) : Prop :=
  ∀ m tree, trees !! m = Some tree -> tree_wf tree.

(** The panics a request may end in once the setup went through: the
    ones raised in [ServeHTTP] and in [matchAndParse] on a well-formed
    path, and the ones of the code of the caller. *)
Definition request_time (f : Fault) : bool :=
  match f with
  | ErrMethodNotRegistered | ErrRegexpCompile _ | ErrHandler _ => true
  | ErrSliceBounds line => line =? 163
  | ErrIndexOutOfRange line => (line =? 172) || (line =? 277)
  | ErrInvalidMethod | ErrMalformedRoute => false
  end.

(** ** Simple routes

    The routes made of static segments that hold no character of the
    expression syntax and of colon parameters, and the request paths
    they stand for. *)

Inductive tok :=
| Lit (l : str)      (* a static segment *)
| Par (rest : str).  (* the segment made of a colon and [rest] *)

Definition tok_seg (t : tok) : str :=
  match t with
  | Lit l => l
  | Par rest => ":" ++ rest
  end.

(** The route path: every segment after a slash. *)
Definition path_of (toks : list tok) : str :=
  flat_map (fun t => "/" ++ tok_seg t) toks.

Definition no_slash (s : str) : bool := forallb (fun c => negb (chr_eqb c "/")) s.

Definition plain (c : ascii) : bool := Regexp.lit_char c && negb (chr_eqb c "/").

Definition good_tok (t : tok) : bool :=
  match t with
  | Lit l => negb (bool_decide (l = [])) && forallb plain l && negb (is_colon l)
  | Par rest => no_slash rest
  end.

(** The name [matchAndParse] records for a colon segment, and the class
    its value is matched against. *)
Definition par_name (rest : str) : str := List.hd [] (Split ":" rest).

Definition par_class (rest : str) : list (ascii * ascii) :=
  if decide (par_name rest = idKey) then Regexp.digit_ranges else Regexp.word_ranges.

(** One or more characters of the class. *)
Definition class_plus (rs : list (ascii * ascii)) (v : str) : bool :=
  negb (bool_decide (v = [])) && forallb (fun c => Regexp.in_ranges c rs) v.

Fixpoint names_of (toks : list tok) : list str :=
  match toks with
  | [] => []
  | Lit _ :: ts => names_of ts
  | Par rest :: ts => par_name rest :: names_of ts
  end.

(** The values fit the parameters, one for one. *)
Fixpoint ok_vals (toks : list tok) (vals : list str) : bool :=
  match toks, vals with
  | [], [] => true
  | Lit _ :: ts, _ => ok_vals ts vals
  | Par rest :: ts, v :: vs => class_plus (par_class rest) v && ok_vals ts vs
  | _, _ => false
  end.

(** The segments of the request path that carries the values. *)
Fixpoint inst_segs (toks : list tok) (vals : list str) : list str :=
  match toks with
  | [] => []
  | Lit l :: ts => l :: inst_segs ts vals
  | Par _ :: ts =>
      match vals with
      | v :: vs => v :: inst_segs ts vs
      | [] => [] :: inst_segs ts []
      end
  end.

Definition inst (toks : list tok) (vals : list str) : str :=
  flat_map (fun seg => "/" ++ seg) (inst_segs toks vals).

(** The map that binds the names to the values, the later binding of a
    name replacing the earlier. *)
Definition bind_all (names vals : list str) : paramsMapType :=
  fold_left (fun m p => <[p.1 := p.2]> m) (zip names vals) ∅.

(** The expression of a simple route: its text and its syntax tree. *)
Definition tok_pattern (t : tok) : str :=
  match t with
  | Lit l => "/" ++ l
  | Par rest =>
      "/" ++ "(" ++ (if decide (par_name rest = idKey) then idPattern else defaultPattern) ++ ")"
  end.

Definition pattern_of (toks : list tok) : str := flat_map tok_pattern toks.

Fixpoint items_of (k : nat) (toks : list tok) : list Regexp.regex :=
  match toks with
  | [] => []
  | Lit l :: ts => Regexp.RChar "/" :: map Regexp.RChar l ++ items_of k ts
  | Par rest :: ts =>
      Regexp.RChar "/"
      :: Regexp.RGroup (S k)
           (Regexp.RCat (Regexp.RPlus (Regexp.RClass false (par_class rest))) Regexp.REmpty)
      :: items_of (S k) ts
  end.

(** The captures once the groups after group [k] took the values. *)
Fixpoint set_caps (k : nat) (vals : list str) (caps : Regexp.captures) : Regexp.captures :=
  match vals with
  | [] => caps
  | v :: vs => set_caps (S k) vs (Regexp.set_cap (S k) v caps)
  end.

(** The continuation of the search: the match ends where it stands. *)
Definition accept : str -> Regexp.captures -> option (str * Regexp.captures) :=
  fun s' caps => Some (s', caps).

(** ** Substituting the parameters back *)

(** [strings.Join]. *)
Fixpoint Join (sep : str) (l : list str) : str :=
  match l with
  | [] => []
  | [a] => a
  | a :: rest => a ++ sep ++ Join sep rest
  end.

(** The name the loop of [matchAndParse] records for a segment, if it
    records one. *)
Definition segment_name (seg : str) : option str :=
  match segment_step ([], []) seg with
  | Ok ([name], _) => Some name
  | _ => None
  end.

(** The route path with every parameter segment replaced by the value
    bound to its name. *)
Definition substitute (m : paramsMapType) (path : str) : str :=
  Join "/" (map (fun seg => match segment_name seg with
                            | Some name => default [] (m !! name)
                            | None => seg
                            end) (Split "/" path)).

(** ** Notions for the properties of the dispatch *)

(** The segments of a path that the loop of [matchAndParse] does not
    skip. *)
Definition segments (path : str) : list str :=
  filter (fun seg => seg ≠ []) (Split "/" path).

(** A candidate the loop of lines 176 to 188 passes over: it has no
    handler, or its path is the request path, or it does not match. *)
Definition passed_over (requestUrl : str) (node : Node) : Prop :=
  node_handle node = None ∨ node_path node = requestUrl
  ∨ matchAndParse requestUrl (node_path node) = Ok None.

(** ** Handlers and middleware that leave a trace, for the examples *)

Definition say (msg : str) : HandlerFunc := fun _ log => (log ++ [msg], None).

Definition tracing (name : str) : MiddlewareType := fun next r log =>
  match next r (log ++ ["enter " ++ name]) with
  | (log', None) => (log' ++ ["leave " ++ name], None)
  | (log', Some v) => (log', Some v)
  end.

Definition get (path : str) : Request := MkRequest "GET" path None.

(** A panic handler that answers every panic. *)
Definition recovering : Request -> Fault -> UserCode :=
  fun _ _ log => (log ++ ["recovered"], None).

(** A handler that panics with a value of its own. *)
Definition failing (v : str) : HandlerFunc := fun _ log => (log, Some v).

(** The text a panic handler may report for a panic. *)
Definition fault_text (f : Fault) : str :=
  match f with
  | ErrInvalidMethod => "invalid method"
  | ErrMethodNotRegistered => "Error method or method is not registered "
  | ErrMalformedRoute => "malformed route"
  | ErrIndexOutOfRange _ => "index out of range"
  | ErrSliceBounds _ => "slice bounds out of range"
  | ErrRegexpCompile _ => "regexp: Compile"
  | ErrHandler v => v
  end.

(** A panic handler that writes the panic it was given and the id
    parameter of the request it was given. *)
Definition reporting : Request -> Fault -> UserCode :=
  fun r err log => (log ++ [fault_text err; GetParam r "id"], None).

Definition demo_trees : Res (gmap str Tree) :=
  let r := Use (Use (New.1) [tracing "A"]) [tracing "B"] in
  register_all ∅ [MkReg r "GET" "/users/:id" (Some (say "user"));
                  MkReg r "GET" "/about" (Some (say "about"))].

Definition demo_serve (r : Request) : Res (Log * Res unit) :=
  trees ← demo_trees; Ok (ServeHTTP New.1 trees r []).

(** * Properties *)

(** ** Sample runs *)

Example ex1 : matchAndParse "/users/42" "/users/:id" = Ok (Some {[ "id" := "42" ]}).
Proof. vm_compute. reflexivity. Qed.
Example ex2 : matchAndParse "/users/abc" "/users/:id" = Ok None.
Proof. vm_compute. reflexivity. Qed.
Example ex3 : matchAndParse "/abc" "/a.c" = Ok (Some ∅).
Proof. vm_compute. reflexivity. Qed.
Example ex4 : matchAndParse "/x/y" "/:a/:a" = Ok (Some {[ "a" := "y" ]}).
Proof. vm_compute. reflexivity. Qed.
Example ex5 : matchAndParse "/x" "/{name}" = Panic (ErrIndexOutOfRange 252).
Proof. vm_compute. reflexivity. Qed.
Example ex6 : matchAndParse "/ab" "/{x:a:b}" = matchAndParse "/ab" "/{x:a}".
Proof. vm_compute. reflexivity. Qed.
Example ex7 : matchAndParse "/a" "/(a)" = Panic (ErrIndexOutOfRange 277).
Proof. vm_compute. reflexivity. Qed.
Example ex8 : matchAndParse "/items/AB-9" "/items/{code:[A-Z]+-[\d]}" = Ok (Some {[ "code" := "AB-9" ]}).
Proof. vm_compute. reflexivity. Qed.

Example ex10 : demo_serve (get "/about") = Ok (["enter B"; "enter A"; "about"; "leave A"; "leave B"], Ok tt).
Proof. vm_compute. reflexivity. Qed.
Example ex11 : demo_serve (get "/users/42") = Ok (["enter B"; "enter A"; "user"; "leave A"; "leave B"], Ok tt).
Proof. vm_compute. reflexivity. Qed.
Example ex12 : demo_serve (get "/users/abc") = Ok (["404 page not found"], Ok tt).
Proof. vm_compute. reflexivity. Qed.
Example ex13 : demo_serve (get "") = Ok ([], Panic (ErrIndexOutOfRange 172)).
Proof. vm_compute. reflexivity. Qed.
Example ex14 : demo_serve (get "/") = Ok (["404 page not found"], Ok tt).
Proof. vm_compute. reflexivity. Qed.
Example ex15 : demo_serve (MkRequest "POST" "/about" None) = Ok ([], Panic ErrMethodNotRegistered).
Proof. vm_compute. reflexivity. Qed.

(** ** Strings *)

Lemma chr_eqb_eq (a b : ascii) : chr_eqb a b = true <-> a = b.
Proof. apply Ascii.eqb_eq. Qed.

Lemma chr_eqb_neq (a b : ascii) : chr_eqb a b = false <-> a ≠ b.
Proof. apply Ascii.eqb_neq. Qed.

Lemma chr_eqb_refl (a : ascii) : chr_eqb a a = true.
Proof. apply Ascii.eqb_refl. Qed.

Lemma Split_nonempty sep s : Split sep s ≠ [].
Proof.
  destruct s as [|c r]; simpl; [done|].
  destruct (chr_eqb c sep); [done|]. by destruct (Split sep r).
Qed.

(** Splitting distributes over a separator. *)
Lemma Split_app sep a b : Split sep (a ++ sep :: b) = Split sep a ++ Split sep b.
Proof.
  induction a as [|c a IH]; simpl.
  - by rewrite chr_eqb_refl.
  - destruct (chr_eqb c sep); [by rewrite IH|].
    rewrite IH. pose proof (Split_nonempty sep a).
    by destruct (Split sep a).
Qed.

Lemma Split_no_sep sep s : sep ∉ s -> Split sep s = [s].
Proof.
  induction s as [|c s IH]; intros Hn; simpl; [done|].
  apply not_elem_of_cons in Hn as [Hc Hs].
  assert (chr_eqb c sep = false) as -> by (apply chr_eqb_neq; congruence).
  by rewrite IH.
Qed.

Lemma Split_cons_piece sep a b : sep ∉ a -> Split sep (a ++ sep :: b) = a :: Split sep b.
Proof. intros Hn. by rewrite Split_app, Split_no_sep. Qed.

Lemma Split_has_sep sep s :
  existsb (chr_eqb sep) s = true -> is_Some (Split sep s !! 1).
Proof.
  induction s as [|c s IH]; simpl; [done|].
  rewrite orb_true_iff. intros H.
  destruct (chr_eqb c sep) eqn:E.
  - pose proof (Split_nonempty sep s). destruct (Split sep s); [done|]. by eexists.
  - destruct H as [H|H].
    + apply chr_eqb_eq in H. subst. by rewrite chr_eqb_refl in E.
    + destruct (IH H) as [x Hx]. destruct (Split sep s) as [|p ps]; [done|].
      simpl in *. by eexists.
Qed.

Lemma Split_lookup_1 sep s : Split sep s !! 1 = None <-> sep ∉ s.
Proof.
  split.
  - intros HN Hin.
    assert (existsb (chr_eqb sep) s = true) as He.
    { apply existsb_exists. exists sep. split; [by apply list_elem_of_In|apply chr_eqb_refl]. }
    apply Split_has_sep in He as [x Hx]. congruence.
  - intros Hn. by rewrite Split_no_sep.
Qed.

Lemma last_snoc (a : ascii) (l : str) (z d : ascii) : List.last (a :: l ++ [z]) d = z.
Proof.
  change (a :: l ++ [z]) with ((a :: l) ++ [z]). apply last_last.
Qed.

Lemma inner_braced (a z : ascii) (mid : str) : inner (a :: mid ++ [z]) = mid.
Proof.
  unfold inner. simpl. rewrite length_app. simpl.
  replace (length mid + 1 - 1) with (length mid) by lia.
  rewrite drop_0. apply take_app_length.
Qed.

Lemma segment_step_braced (matchName : list str) (sTemp mid : str) :
  segment_step (matchName, sTemp) ("{" ++ mid ++ "}") =
  match Split ":" mid !! 1 with
  | None => Panic (ErrIndexOutOfRange 252)
  | Some frag =>
      Ok (matchName ++ [List.hd [] (Split ":" mid)], sTemp ++ "/" ++ "(" ++ frag ++ ")")
  end.
Proof.
  unfold segment_step. cbn [app].
  rewrite last_snoc, inner_braced. reflexivity.
Qed.

Lemma build_pattern_app acc l1 l2 :
  build_pattern acc (l1 ++ l2) = (acc' ← build_pattern acc l1; build_pattern acc' l2).
Proof.
  revert acc. induction l1 as [|seg l1 IH]; intros acc; simpl; [done|].
  destruct (segment_step acc seg) as [acc'| |]; simpl; [apply IH|done|done].
Qed.

(** C10: in a braced segment the text after a second colon is dropped:
    the capture pattern is the text between the first and the second
    colon, and the segment compiles as the segment without the rest. *)
Theorem brace_second_colon_dropped (name frag rest : str) :
  ":"%char ∉ name -> ":"%char ∉ frag ->
  let seg1 := "{" ++ name ++ ":" ++ frag ++ ":" ++ rest ++ "}" in
  let seg2 := "{" ++ name ++ ":" ++ frag ++ "}" in
  (∀ matchName sTemp,
     segment_step (matchName, sTemp) seg1
     = Ok (matchName ++ [name], sTemp ++ "/" ++ "(" ++ frag ++ ")")) ∧
  (∀ acc, segment_step acc seg1 = segment_step acc seg2) ∧
  (∀ requestUrl path1 path2 l1 l2,
     Split "/" path1 = l1 ++ seg1 :: l2 ->
     Split "/" path2 = l1 ++ seg2 :: l2 ->
     matchAndParse requestUrl path1 = matchAndParse requestUrl path2).
Proof.
  intros Hn Hf seg1 seg2.
  assert (H1 : ∀ matchName sTemp,
     segment_step (matchName, sTemp) seg1
     = Ok (matchName ++ [name], sTemp ++ "/" ++ "(" ++ frag ++ ")")).
  { intros. subst seg1.
    replace ("{" ++ name ++ ":" ++ frag ++ ":" ++ rest ++ "}")
      with ("{" ++ (name ++ ":" ++ frag ++ ":" ++ rest) ++ "}")
      by (by rewrite <- !app_assoc).
    rewrite segment_step_braced.
    change (name ++ ":" ++ frag ++ ":" ++ rest) with (name ++ ":"%char :: (frag ++ ":"%char :: rest)).
    by rewrite (Split_cons_piece _ name), (Split_cons_piece _ frag). }
  assert (H2 : ∀ acc, segment_step acc seg1 = segment_step acc seg2).
  { intros [matchName sTemp]. rewrite H1. subst seg2.
    replace ("{" ++ name ++ ":" ++ frag ++ "}") with ("{" ++ (name ++ ":" ++ frag) ++ "}")
      by (by rewrite <- !app_assoc).
    rewrite segment_step_braced.
    change (name ++ ":" ++ frag) with (name ++ ":"%char :: frag).
    by rewrite (Split_cons_piece _ name), (Split_no_sep _ frag). }
  split; [exact H1|]. split; [exact H2|].
  intros requestUrl path1 path2 l1 l2 E1 E2.
  unfold matchAndParse. rewrite E1, E2.
  rewrite !build_pattern_app.
  destruct (build_pattern ([], []) l1) as [acc| |]; [|done|done].
  change (acc' ← Ok acc; build_pattern acc' (seg1 :: l2)) with (build_pattern acc (seg1 :: l2)).
  change (acc' ← Ok acc; build_pattern acc' (seg2 :: l2)) with (build_pattern acc (seg2 :: l2)).
  simpl. by rewrite H2.
Qed.

Lemma brace_second_colon_dropped_witness :
  (":"%char ∉ "x") ∧ (":"%char ∉ "a") ∧
  matchAndParse "/k/ab" "/k/{x:a:b}/" = matchAndParse "/k/ab" "/k/{x:a}/".
Proof.
  assert (Hx : ":"%char ∉ "x") by (apply (bool_decide_unpack _); reflexivity).
  assert (Ha : ":"%char ∉ "a") by (apply (bool_decide_unpack _); reflexivity).
  split; [exact Hx|]. split; [exact Ha|].
  exact (proj2 (proj2 (brace_second_colon_dropped "x" "a" "b" Hx Ha))
           "/k/ab" "/k/{x:a:b}/" "/k/{x:a}/" [""; "k"] [""] eq_refl eq_refl).
Defined.

(** ** The composed handler *)

Lemma compose_snoc (ms : list MiddlewareType) (m : MiddlewareType) (h : HandlerFunc) :
  compose (ms ++ [m]) h = m (compose ms h).
Proof. unfold compose. by rewrite fold_left_app. Qed.

Lemma Use_middleware (router : Router) (mws : list MiddlewareType) :
  middleware (Use router mws) = middleware router ++ mws.
Proof. destruct mws; simpl; [by rewrite app_nil_r|done]. Qed.

(** C7: the middleware appended last is the outermost wrapper.  After
    [Use(A)] and [Use(B)] the chain run by [handle] is [B] around [A]
    around what the earlier middleware made of the handler, and with
    tracing middleware on a fresh router the entries are seen in the
    order B, A, H, the exits in the reverse order. *)
Theorem handle_last_appended_outermost :
  (∀ (router : Router) (A B : MiddlewareType) (H : HandlerFunc) (r : Request),
     handle r H (middleware (Use (Use router [A]) [B]))
     = B (A (compose (middleware router) H)) r) ∧
  (∀ (a b h : str) (r : Request) (log : Log),
     handle r (say h) (middleware (Use (Use New.1 [tracing a]) [tracing b])) log
     = (log ++ ["enter " ++ b; "enter " ++ a; h; "leave " ++ a; "leave " ++ b], None)).
Proof.
  split.
  - intros. unfold handle. by rewrite !Use_middleware, !compose_snoc.
  - intros. unfold handle. rewrite !Use_middleware, !compose_snoc. simpl.
    unfold tracing, say. by rewrite <- !app_assoc.
Qed.

(** ** The whole-path test of [matchAndParse] *)

(** C5: whatever span the compiled, unanchored expression matches in
    the request path, [matchAndParse] succeeds only when that span is the
    whole request path, and answers no match when it is a proper part. *)
Theorem matchAndParse_accepts_whole_span_only
    (requestUrl path pattern whole : str) (matchName : list str)
    (re : Regexp.Regexp) (groups : Regexp.captures) :
  build_pattern ([], []) (Split "/" path) = Ok (matchName, pattern) ->
  Regexp.MustCompile pattern = Ok re ->
  Regexp.FindSubmatch re requestUrl = Ok (Some (whole, groups)) ->
  (∀ m, matchAndParse requestUrl path = Ok (Some m) -> whole = requestUrl) ∧
  (whole ≠ requestUrl -> matchAndParse requestUrl path = Ok None).
Proof.
  intros Hb Hc Hf. unfold matchAndParse. rewrite Hb. simpl. rewrite Hc. simpl.
  rewrite Hf. simpl. split.
  - intros m. by destruct (decide (whole = requestUrl)).
  - intros Hne. by destruct (decide (whole = requestUrl)).
Qed.

Lemma matchAndParse_accepts_whole_span_only_witness :
  build_pattern ([], []) (Split "/" "/users/:id") = Ok (["id"], "/users/([\d]+)") ∧
  Regexp.MustCompile "/users/([\d]+)"
  = Ok (Regexp.MkRegexp
          (Regexp.seq_of (map Regexp.RChar "/users/" ++
             [Regexp.RGroup 1 (Regexp.seq_of
                [Regexp.RPlus (Regexp.RClass false Regexp.digit_ranges)])])) 1) ∧
  matchAndParse "/users/42/edit" "/users/:id" = Ok None.
Proof.
  split; [reflexivity|]. split; [reflexivity|].
  refine (proj2 (matchAndParse_accepts_whole_span_only
            "/users/42/edit" "/users/:id" "/users/([\d]+)" "/users/42" ["id"] _ [Some "42"]
            eq_refl eq_refl eq_refl) _).
  apply (bool_decide_unpack _). reflexivity.
Defined.

(** ** Which methods have a tree *)

Lemma Handle_lookup_None router trees method path h trees' m :
  Handle router trees method path h = Ok trees' ->
  trees' !! m = None <-> trees !! m = None ∧ method ≠ m.
Proof.
  unfold Handle. destruct (methods !! method); [|done].
  destruct (Add _ _ _ _) as [root'| |]; simpl; [|done|done].
  intros [= <-]. rewrite lookup_insert_None. tauto.
Qed.

Lemma register_all_lookup_None regs : ∀ trees trees' m,
  register_all trees regs = Ok trees' ->
  trees' !! m = None <-> trees !! m = None ∧ ∀ g, g ∈ regs -> reg_method g ≠ m.
Proof.
  induction regs as [|g regs IH]; intros trees trees' m; simpl.
  - intros [= <-]. split; [|tauto]. intros H. split; [done|]. by intros g ?%elem_of_nil.
  - destruct (Handle _ _ _ _ _) as [trees1| |] eqn:EH; simpl; [|done|done].
    intros Hr. rewrite (IH _ _ m Hr), (Handle_lookup_None _ _ _ _ _ _ m EH).
    split.
    + intros [[H1 H2] H3]. split; [done|]. intros g' [->|Hin]%elem_of_cons; auto.
    + intros [H1 H2]. split; [split; [done|]|].
      * apply H2. left.
      * intros g' Hin. apply H2. by right.
Qed.

(** C6: a request for a method no route was registered for makes the
    body of [ServeHTTP] panic with the unregistered-method error, it
    does not answer 404; with a [PanicHandler] installed the handler is
    called with that error and [ServeHTTP] returns as the handler
    does. *)
Theorem unregistered_method_fault (regs : list Registration) (trees : gmap str Tree)
    (router : Router) (r : Request) (log : Log) :
  register_all ∅ regs = Ok trees ->
  (∀ g, g ∈ regs -> reg_method g ≠ Method r) ->
  serve router trees r log = (r, log, Panic ErrMethodNotRegistered) ∧
  ServeHTTP router trees r log =
    match PanicHandler router with
    | None => (log, Panic ErrMethodNotRegistered)
    | Some ph =>
        let '(log', p) := ph r ErrMethodNotRegistered log in
        (log', match p with Some v => Panic (ErrHandler v) | None => Ok tt end)
    end.
Proof.
  intros Hreg Hno.
  assert (trees !! Method r = None) as Hm.
  { apply (register_all_lookup_None _ _ _ _ Hreg). split; [apply lookup_empty|done]. }
  assert (serve router trees r log = (r, log, Panic ErrMethodNotRegistered)) as Hs.
  { unfold serve. by rewrite Hm. }
  split; [done|]. unfold ServeHTTP. rewrite Hs.
  by destruct (PanicHandler router).
Qed.

Lemma unregistered_method_fault_witness :
  ∃ trees,
    register_all ∅ [MkReg New.1 "GET" "/about" (Some (say "about"))] = Ok trees ∧
    (∀ g, g ∈ [MkReg New.1 "GET" "/about" (Some (say "about"))] ->
          reg_method g ≠ "POST") ∧
    ServeHTTP (MkRouter [] [] None (Some recovering)) trees
              (MkRequest "POST" "/about" None) []
    = (["recovered"], Ok tt).
Proof.
  set (regs := [MkReg New.1 "GET" "/about" (Some (say "about"))]).
  set (router := MkRouter [] [] None (Some recovering)).
  assert (E : ∃ trees, register_all ∅ regs = Ok trees)
    by (eexists; vm_compute; reflexivity).
  destruct E as [trees E]. exists trees. split; [exact E|].
  assert (Hno : ∀ g, g ∈ regs -> reg_method g ≠ "POST").
  { intros g Hin. apply list_elem_of_singleton in Hin. subst g. discriminate. }
  split; [exact Hno|].
  exact (proj2 (unregistered_method_fault regs trees router
                  (MkRequest "POST" "/about" None) [] E Hno)).
Defined.

(** ** What a registration leaves in the tree *)

Lemma Add_Ok tree path h mws tree' :
  Add tree path h mws = Ok tree' ->
  existsb malformed (Split "/" path) = false ∧
  exact tree' = (if pattern_free path then <[path := MkNode path h mws]> (exact tree)
                 else exact tree) ∧
  buckets tree' = <[first_segment path :=
                      default [] (buckets tree !! first_segment path) ++ [MkNode path h mws]]>
                    (buckets tree).
Proof.
  unfold Add. destruct (existsb malformed (Split "/" path)); [done|].
  by intros [= <-].
Qed.

Lemma Handle_Ok router trees method path h trees' :
  Handle router trees method path h = Ok trees' ->
  ∃ tree', Add (default NewTree (trees !! method)) (routed_path router path) h
               (middleware router) = Ok tree'
           ∧ trees' = <[method := tree']> trees.
Proof.
  unfold Handle. destruct (methods !! method); [|done].
  destruct (Add _ _ _ _) as [tree'| |]; simpl; [|done|done].
  intros [= <-]. by exists tree'.
Qed.

(** A pattern-free route sits in the index under its own path. *)
Lemma Handle_exact router trees method path h trees' :
  Handle router trees method path h = Ok trees' ->
  pattern_free (routed_path router path) = true ->
  ∃ tree, trees' !! method = Some tree ∧
          exact tree !! routed_path router path
          = Some (MkNode (routed_path router path) h (middleware router)).
Proof.
  intros (tree' & HA & ->)%Handle_Ok Hpf.
  apply Add_Ok in HA as (_ & He & _). exists tree'.
  rewrite lookup_insert_eq. split; [done|].
  rewrite He, Hpf. apply lookup_insert_eq.
Qed.

(** It stays until the same path is registered again for the method. *)
Lemma Handle_exact_preserved router trees method path h trees' m tree p node :
  Handle router trees method path h = Ok trees' ->
  trees !! m = Some tree -> exact tree !! p = Some node ->
  (method = m -> routed_path router path ≠ p) ->
  ∃ tree', trees' !! m = Some tree' ∧ exact tree' !! p = Some node.
Proof.
  intros (tree' & HA & ->)%Handle_Ok Hm Hp Hne.
  apply Add_Ok in HA as (_ & He & _).
  destruct (decide (method = m)) as [->|Hmm].
  - exists tree'. rewrite lookup_insert_eq. split; [done|].
    rewrite He, Hm. simpl. destruct (pattern_free _); [|done].
    rewrite lookup_insert_ne; [done|]. by apply Hne.
  - exists tree. by rewrite lookup_insert_ne.
Qed.

Lemma register_all_exact_preserved regs : ∀ trees trees' m tree p node,
  register_all trees regs = Ok trees' ->
  trees !! m = Some tree -> exact tree !! p = Some node ->
  (∀ g, g ∈ regs -> reg_method g = m -> full_path g ≠ p) ->
  ∃ tree', trees' !! m = Some tree' ∧ exact tree' !! p = Some node.
Proof.
  induction regs as [|g regs IH]; intros trees trees' m tree p node; simpl.
  - intros [= <-] ? ? _. by exists tree.
  - destruct (Handle _ _ _ _ _) as [trees1| |] eqn:EH; simpl; [|done|done].
    intros Hr Hm Hp Hne.
    destruct (Handle_exact_preserved _ _ _ _ _ _ _ _ _ _ EH Hm Hp) as (tree1 & Hm1 & Hp1).
    { intros Heq. apply Hne; [left|done]. }
    apply (IH _ _ _ _ _ _ Hr Hm1 Hp1). intros g' Hin. apply Hne. by right.
Qed.

Lemma register_all_app regs1 regs2 trees :
  register_all trees (regs1 ++ regs2)
  = (trees' ← register_all trees regs1; register_all trees' regs2).
Proof.
  revert trees. induction regs1 as [|g regs1 IH]; intros trees; simpl; [done|].
  destruct (Handle _ _ _ _ _) as [trees1| |]; simpl; [apply IH|done|done].
Qed.

(** C8: the exact path of a registered pattern-free route, not
    registered again since, runs the handler of that route under the
    middleware of its registration, on the request as it came in: no
    parameter is attached, [GetAllParams] gives nil and [GetParam] the
    empty string for every key. *)
Theorem static_route_exact_dispatch (regs1 regs2 : list Registration) (g : Registration)
    (h : HandlerFunc) (trees : gmap str Tree) (router : Router) (r : Request) (log : Log) :
  register_all ∅ (regs1 ++ g :: regs2) = Ok trees ->
  reg_handle g = Some h ->
  pattern_free (full_path g) = true ->
  (∀ g', g' ∈ regs2 -> reg_method g' = reg_method g -> full_path g' ≠ full_path g) ->
  Method r = reg_method g -> URLPath r = full_path g -> ctxParams r = None ->
  serve router trees r log = run_user r (handle r h (middleware (reg_router g))) log ∧
  GetAllParams r = None ∧
  (∀ key, GetParam r key = []).
Proof.
  intros Hreg Hh Hpf Hlast HM HU Hctx.
  rewrite register_all_app in Hreg.
  destruct (register_all ∅ regs1) as [trees0| |]; simpl in Hreg; [|done|done].
  destruct (Handle _ _ _ _ _) as [trees1| |] eqn:EH; simpl in Hreg; [|done|done].
  destruct (Handle_exact _ _ _ _ _ _ EH Hpf) as (tree1 & Hm1 & Hp1).
  destruct (register_all_exact_preserved _ _ _ _ _ _ _ Hreg Hm1 Hp1 Hlast)
    as (tree & Hm & Hp).
  split; [|split].
  - unfold serve. rewrite HM, Hm, HU. unfold Find, full_path in *. rewrite Hp. simpl.
    rewrite Hh. by rewrite decide_True.
  - exact Hctx.
  - intros key. unfold GetParam, GetAllParams. by rewrite Hctx.
Qed.

Lemma static_route_exact_dispatch_witness :
  ∃ trees,
    register_all ∅ ([MkReg New.1 "GET" "/about" (Some (say "old"))] ++
                    MkReg (Use New.1 [tracing "A"]) "GET" "/about" (Some (say "about")) ::
                    [MkReg New.1 "GET" "/users/:id" (Some (say "user"))]) = Ok trees ∧
    pattern_free "/about" = true ∧
    serve New.1 trees (get "/about") [] = (get "/about", ["enter A"; "about"; "leave A"], Ok tt) ∧
    GetParam (get "/about") "id" = [].
Proof.
  set (regs1 := [MkReg New.1 "GET" "/about" (Some (say "old"))]).
  set (g := MkReg (Use New.1 [tracing "A"]) "GET" "/about" (Some (say "about"))).
  set (regs2 := [MkReg New.1 "GET" "/users/:id" (Some (say "user"))]).
  assert (E : ∃ trees, register_all ∅ (regs1 ++ g :: regs2) = Ok trees)
    by (eexists; vm_compute; reflexivity).
  destruct E as [trees E]. exists trees. split; [exact E|]. split; [reflexivity|].
  assert (Hlast : ∀ g', g' ∈ regs2 -> reg_method g' = reg_method g ->
                         full_path g' ≠ full_path g).
  { intros g' Hin _. apply list_elem_of_singleton in Hin. subst g'. discriminate. }
  pose proof (static_route_exact_dispatch regs1 regs2 g (say "about") trees New.1
                (get "/about") [] E eq_refl eq_refl Hlast eq_refl eq_refl eq_refl)
    as (Hs & _ & Hp).
  split; [exact Hs|exact (Hp "id")].
Defined.

(** ** No malformed route is stored *)

Lemma Add_wf tree path h mws tree' :
  Add tree path h mws = Ok tree' -> tree_wf tree -> tree_wf tree'.
Proof.
  intros (Hwf & _ & Hb)%Add_Ok Ht key nodes node. rewrite Hb.
  destruct (decide (first_segment path = key)) as [<-|Hne].
  - rewrite lookup_insert_eq. intros [= <-] [Hin|Hin]%elem_of_app.
    + destruct (buckets tree !! first_segment path) as [old|] eqn:E; simpl in Hin.
      * by apply (Ht _ _ _ E).
      * by apply elem_of_nil in Hin.
    + apply list_elem_of_singleton in Hin. by subst node.
  - rewrite lookup_insert_ne by done. apply Ht.
Qed.

Lemma Handle_wf router trees method path h trees' :
  Handle router trees method path h = Ok trees' -> trees_wf trees -> trees_wf trees'.
Proof.
  intros (tree' & HA & ->)%Handle_Ok Hwf m tree.
  destruct (decide (method = m)) as [->|Hne].
  - rewrite lookup_insert_eq. intros [= <-]. apply (Add_wf _ _ _ _ _ HA).
    destruct (trees !! m) as [t|] eqn:E; simpl; [by apply (Hwf m)|].
    intros key nodes node. simpl. by rewrite lookup_empty.
  - rewrite lookup_insert_ne by done. apply Hwf.
Qed.

Lemma register_all_wf regs : ∀ trees trees',
  register_all trees regs = Ok trees' -> trees_wf trees -> trees_wf trees'.
Proof.
  induction regs as [|g regs IH]; intros trees trees'; simpl.
  - by intros [= <-].
  - destruct (Handle _ _ _ _ _) as [trees1| |] eqn:EH; simpl; [|done|done].
    intros Hr Hwf. apply (IH _ _ Hr). by apply (Handle_wf _ _ _ _ _ _ EH).
Qed.

Lemma trees_wf_empty : trees_wf ∅.
Proof. intros m tree. by rewrite lookup_empty. Qed.

(** ** The panics of [matchAndParse] *)

Lemma Split_colon_lookup_1 (rest : str) :
  Split ":" (":" ++ rest) !! 1 = Some (List.hd [] (Split ":" rest)).
Proof.
  simpl. pose proof (Split_nonempty ":" rest). by destruct (Split ":" rest).
Qed.

Lemma segment_step_wf acc seg :
  malformed seg = false -> ∃ acc', segment_step acc seg = Ok acc'.
Proof.
  destruct acc as [matchName sTemp]. unfold malformed, segment_step, is_braced, is_colon.
  destruct seg as [|firstChar rest]; [by eexists|].
  destruct (chr_eqb firstChar "{" && chr_eqb (List.last (firstChar :: rest) firstChar) "}").
  - intros He%negb_false_iff. apply (Split_has_sep ":") in He as [frag Hf].
    cbv zeta. rewrite Hf. by eexists.
  - destruct (chr_eqb firstChar ":") eqn:Ec; [|by eexists].
    intros _. apply chr_eqb_eq in Ec. subst firstChar. cbv zeta.
    change (":"%char :: rest) with (":" ++ rest).
    rewrite Split_colon_lookup_1.
    destruct (decide _); by eexists.
Qed.

Lemma build_pattern_wf segs : ∀ acc,
  existsb malformed segs = false -> ∃ acc', build_pattern acc segs = Ok acc'.
Proof.
  induction segs as [|seg segs IH]; intros acc; simpl; [by eexists|].
  intros [Hs Hr]%orb_false_iff.
  destruct (segment_step_wf acc seg Hs) as [acc1 ->]. simpl. by apply IH.
Qed.

Lemma MustCompile_Panic pattern f :
  Regexp.MustCompile pattern = Panic f -> f = ErrRegexpCompile pattern.
Proof.
  unfold Regexp.MustCompile.
  destruct (Regexp.parse_loop _ _); [|by intros [= <-]|done].
  destruct (Regexp.finish st); [done|by intros [= <-]|done].
Qed.

Lemma FindSubmatch_no_Panic re b f : Regexp.FindSubmatch re b ≠ Panic f.
Proof. unfold Regexp.FindSubmatch. by destruct (_ && _). Qed.

Lemma bind_params_Panic matchName : ∀ subMatch m f,
  bind_params matchName subMatch m = Panic f -> f = ErrIndexOutOfRange 277.
Proof.
  induction matchName as [|n ns IH]; intros [|v vs] m f; simpl; try done.
  - by intros [= <-].
  - apply IH.
Qed.

(** On a well-formed path [matchAndParse] panics only when the
    expression does not compile or has more groups than parameters. *)
Lemma matchAndParse_Panic requestUrl path f :
  well_formed path -> matchAndParse requestUrl path = Panic f ->
  request_time f = true.
Proof.
  intros Hwf. unfold matchAndParse.
  destruct (build_pattern_wf (Split "/" path) ([], []) Hwf) as [[matchName pattern] ->].
  simpl. destruct (Regexp.MustCompile pattern) as [re| |] eqn:Ec; simpl.
  - destruct (Regexp.FindSubmatch re requestUrl) as [[[whole groups]|]|f0|] eqn:Ef; simpl;
      [|done|by apply FindSubmatch_no_Panic in Ef|done].
    destruct (decide _); [|done].
    destruct (bind_params matchName groups ∅) eqn:Eb; simpl; try done.
    intros [= <-]. by apply bind_params_Panic in Eb as ->.
  - intros [= <-]. by apply MustCompile_Panic in Ec as ->.
  - done.
Qed.

(** ** The panics of a dispatch *)

Lemma run_user_Panic r code log f :
  (run_user r code log).2 = Panic f -> request_time f = true.
Proof.
  unfold run_user. destruct (code log) as [log' [v|]]; simpl; [|done]. by intros [= <-].
Qed.

Lemma try_candidates_Panic requestUrl r nodes log out f :
  (∀ node, node ∈ nodes -> well_formed (node_path node)) ->
  try_candidates requestUrl r nodes log = Some out ->
  out.2 = Panic f -> request_time f = true.
Proof.
  induction nodes as [|node nodes IH]; simpl; [done|].
  intros Hwf. assert (Hrest : ∀ n, n ∈ nodes -> well_formed (node_path n))
    by (intros n Hn; apply Hwf; by right).
  destruct (node_handle node) as [handler|]; [|by apply IH].
  destruct (decide (node_path node ≠ requestUrl)); [|by apply IH].
  destruct (matchAndParse requestUrl (node_path node)) as [[m|]|f0|] eqn:E.
  - intros [= <-]. apply run_user_Panic.
  - by apply IH.
  - intros [= <-]. simpl. intros [= <-].
    apply (matchAndParse_Panic _ _ _ (Hwf node ltac:(left)) E).
  - by intros [= <-].
Qed.

Lemma serve_Panic router trees r log f :
  trees_wf trees -> (serve router trees r log).2 = Panic f -> request_time f = true.
Proof.
  intros Hwf. unfold serve.
  destruct (trees !! Method r) as [tree|] eqn:Em; [|by intros [= <-]].
  destruct (exact_block _ _ _ _) as [out|] eqn:Ee.
  - unfold exact_block in Ee.
    destruct (Find tree (URLPath r) 0) as [|node ?]; [done|].
    destruct (node_handle node); [|done].
    destruct (decide _); [injection Ee as <-; apply run_user_Panic|].
    destruct (URLPath r); [injection Ee as <-; by intros [= <-]|].
    destruct (decide _); [injection Ee as <-; apply run_user_Panic|done].
  - destruct (Find tree (URLPath r) 0); [|apply run_user_Panic].
    destruct (Split "/" (URLPath r) !! 1) as [prefix|]; [|by intros [= <-]].
    destruct (try_candidates _ _ _ _) as [out|] eqn:Et; [|apply run_user_Panic].
    refine (try_candidates_Panic _ _ _ _ _ _ _ Et).
    intros node Hin. unfold Find in Hin.
    destruct (buckets tree !! prefix) as [nodes|] eqn:Eb; simpl in Hin.
    + by apply (Hwf _ _ Em _ _ _ Eb).
    + by apply elem_of_nil in Hin.
Qed.

Lemma ServeHTTP_Panic router trees r log f :
  trees_wf trees -> (ServeHTTP router trees r log).2 = Panic f -> request_time f = true.
Proof.
  intros Hwf. unfold ServeHTTP.
  pose proof (serve_Panic router trees r log) as Hs.
  destruct (serve router trees r log) as [[r' log'] res]. simpl in Hs.
  destruct res as [[]|f0|]; simpl; [done| |done].
  destruct (PanicHandler router) as [ph|]; [|simpl; by apply Hs].
  destruct (ph r' f0 log') as [log'' [v|]]; simpl; [|done]. by intros [= <-].
Qed.

(** ** Malformed routes *)

Lemma malformed_braced (body : str) : ":"%char ∉ body -> malformed ("{" ++ body ++ "}") = true.
Proof.
  intros Hn. unfold malformed, is_braced. cbn [app].
  rewrite last_snoc, inner_braced. simpl.
  apply negb_true_iff. apply not_true_iff_false. intros (x & Hin & Hx)%existsb_exists.
  apply chr_eqb_eq in Hx. subst x. by apply list_elem_of_In in Hin.
Qed.

Lemma existsb_elem {A} (p : A -> bool) (l : list A) (x : A) :
  x ∈ l -> p x = true -> existsb p l = true.
Proof. intros Hin Hp. apply existsb_exists. exists x. by rewrite <- list_elem_of_In. Qed.

(** C1: a route with a braced token that has no colon, or with a colon
    token that has no name, makes the registering call panic with the
    malformed-route error, and no request served by a router that was
    set up ends in that error, nor in the index fault that the braced
    token raises in [matchAndParse]. *)
Theorem malformed_route_raised_at_registration (regs : list Registration)
    (trees : gmap str Tree) (router : Router) (method path body : str)
    (h : option HandlerFunc) :
  register_all ∅ regs = Ok trees ->
  is_Some (methods !! method) ->
  (("{" ++ body ++ "}" ∈ Split "/" (routed_path router path)) ∧ (":"%char ∉ body))
  ∨ (":" ∈ Split "/" (routed_path router path)) ->
  Handle router trees method path h = Panic ErrMalformedRoute ∧
  (∀ router' r log f,
     (serve router' trees r log).2 = Panic f ∨ (ServeHTTP router' trees r log).2 = Panic f ->
     f ≠ ErrMalformedRoute ∧ f ≠ ErrIndexOutOfRange 252).
Proof.
  intros Hreg [b Hm] Hbad. split.
  - unfold Handle, Add. rewrite Hm.
    assert (existsb malformed (Split "/" (routed_path router path)) = true) as ->; [|done].
    destruct Hbad as [[Hin Hn]|Hin].
    + apply (existsb_elem _ _ _ Hin). by apply malformed_braced.
    + by apply (existsb_elem _ _ _ Hin).
  - intros router' r log f Hf.
    assert (request_time f = true) as Hrt.
    { pose proof (register_all_wf _ _ _ Hreg trees_wf_empty) as Hwf.
      destruct Hf as [Hf|Hf]; [by apply serve_Panic in Hf|by apply ServeHTTP_Panic in Hf]. }
    split; intros ->; discriminate Hrt.
Qed.

Lemma malformed_route_raised_at_registration_witness :
  ∃ trees,
    register_all ∅ [MkReg New.1 "GET" "/users/:id" (Some (say "user"))] = Ok trees ∧
    is_Some (methods !! "GET") ∧
    ("{" ++ "name" ++ "}" ∈ Split "/" (routed_path New.1 "/users/{name}")) ∧
    (":"%char ∉ "name") ∧
    Handle New.1 trees "GET" "/users/{name}" (Some (say "user")) = Panic ErrMalformedRoute ∧
    (∀ f, (ServeHTTP New.1 trees (get "/users/42") []).2 = Panic f ->
          f ≠ ErrMalformedRoute ∧ f ≠ ErrIndexOutOfRange 252).
Proof.
  set (regs := [MkReg New.1 "GET" "/users/:id" (Some (say "user"))]).
  assert (E : ∃ trees, register_all ∅ regs = Ok trees)
    by (eexists; vm_compute; reflexivity).
  destruct E as [trees E]. exists trees. split; [exact E|].
  assert (Hm : is_Some (methods !! "GET")) by (eexists; vm_compute; reflexivity).
  assert (Hin : "{" ++ "name" ++ "}" ∈ Split "/" (routed_path New.1 "/users/{name}"))
    by (apply (bool_decide_unpack _); vm_compute; reflexivity).
  assert (Hn : ":"%char ∉ "name") by (apply (bool_decide_unpack _); vm_compute; reflexivity).
  split; [exact Hm|]. split; [exact Hin|]. split; [exact Hn|].
  pose proof (malformed_route_raised_at_registration regs trees New.1 "GET"
                "/users/{name}" "name" (Some (say "user")) E Hm (or_introl (conj Hin Hn)))
    as [Hh Hs].
  split; [exact Hh|].
  intros f Hf. apply (Hs New.1 (get "/users/42") [] f). right. exact Hf.
Defined.

(** ** The split of the request path *)

(** A path with a slash has a second piece: the index of line 172 is in
    range. *)
Lemma Split_slash_lookup_1 (a b : str) : is_Some (Split "/" (a ++ "/" ++ b) !! 1).
Proof.
  apply Split_has_sep, existsb_exists. exists "/"%char.
  split; [apply in_or_app; right; left; done|apply chr_eqb_refl].
Qed.

(** Without a slash, and without a route stored under the path itself,
    the body of [ServeHTTP] indexes past the end of the split. *)
Lemma serve_no_slash router trees tree r log :
  trees !! Method r = Some tree ->
  exact tree !! URLPath r = None ->
  "/"%char ∉ URLPath r ->
  serve router trees r log = (r, log, Panic (ErrIndexOutOfRange 172)).
Proof.
  intros Hm He Hn. unfold serve, Find. rewrite Hm, He. simpl.
  by apply Split_lookup_1 in Hn as ->.
Qed.

(** C2: the empty request path.  With a route registered for the
    method, [ServeHTTP] splits the empty path into one piece and indexes
    the second: it ends in an index-out-of-range panic at line 172; the
    paths that hold a slash are served. *)
Theorem empty_path_index_out_of_range :
  ∃ trees,
    register_all ∅ [MkReg New.1 "GET" "/x" (Some (say "x"))] = Ok trees ∧
    ServeHTTP New.1 trees (get "") [] = ([], Panic (ErrIndexOutOfRange 172)) ∧
    ServeHTTP New.1 trees (get "/") [] = (["404 page not found"], Ok tt) ∧
    ServeHTTP New.1 trees (get "//x") [] = (["404 page not found"], Ok tt).
Proof.
  eexists. split; [vm_compute; reflexivity|].
  split; [|split]; vm_compute; reflexivity.
Qed.

(** ** The path of a simple route *)

Lemma no_slash_notin (s : str) : no_slash s = true -> "/"%char ∉ s.
Proof.
  unfold no_slash. rewrite forallb_forall. intros H Hin.
  apply list_elem_of_In in Hin. apply H in Hin. by rewrite chr_eqb_refl in Hin.
Qed.

Lemma Split_slash_joined (segs : list str) : ∀ seg,
  no_slash seg = true -> Forall (fun s => no_slash s = true) segs ->
  Split "/" (seg ++ flat_map (fun s => "/" ++ s) segs) = seg :: segs.
Proof.
  induction segs as [|s2 segs IH]; intros seg Hs Hall; simpl.
  - rewrite app_nil_r. by apply Split_no_sep, no_slash_notin.
  - inversion Hall as [|? ? H2 Hr]; subst.
    rewrite Split_cons_piece by (by apply no_slash_notin). by rewrite IH.
Qed.

Lemma Split_slash_flat (segs : list str) :
  Forall (fun s => no_slash s = true) segs ->
  Split "/" (flat_map (fun s => "/" ++ s) segs) = [] :: segs.
Proof. intros H. by apply (Split_slash_joined segs []). Qed.

Lemma plain_lit (c : ascii) : plain c = true -> Regexp.lit_char c = true.
Proof. unfold plain. by intros [? ?]%andb_true_iff. Qed.

Lemma plain_no_slash (l : str) : forallb plain l = true -> no_slash l = true.
Proof.
  unfold no_slash. rewrite !forallb_forall. intros H c Hc.
  apply H in Hc. unfold plain in Hc. by apply andb_true_iff in Hc as [_ ?].
Qed.

Lemma good_tok_no_slash (t : tok) : good_tok t = true -> no_slash (tok_seg t) = true.
Proof.
  destruct t as [l|rest]; simpl.
  - intros [[_ H]%andb_true_iff _]%andb_true_iff. by apply plain_no_slash.
  - done.
Qed.

Lemma path_of_flat (toks : list tok) :
  path_of toks = flat_map (fun s => "/" ++ s) (map tok_seg toks).
Proof.
  unfold path_of. induction toks as [|t ts IH]; [done|].
  cbn [flat_map map]. by rewrite IH.
Qed.

Lemma Split_path_of (toks : list tok) :
  forallb good_tok toks = true -> Split "/" (path_of toks) = [] :: map tok_seg toks.
Proof.
  intros H. rewrite path_of_flat. apply Split_slash_flat.
  apply Forall_map, Forall_forall. intros t Ht.
  apply good_tok_no_slash. rewrite forallb_forall in H. apply H. by apply list_elem_of_In.
Qed.

(** ** The expression of a simple route *)

Lemma lit_char_not (c x : ascii) :
  Regexp.lit_char c = true -> Regexp.lit_char x = false -> chr_eqb c x = false.
Proof.
  intros Hc Hx. apply chr_eqb_neq. intros ->. congruence.
Qed.

Lemma segment_step_Lit names sTemp (l : str) :
  good_tok (Lit l) = true ->
  segment_step (names, sTemp) l = Ok (names, sTemp ++ tok_pattern (Lit l)).
Proof.
  simpl. intros [[Hne Hp]%andb_true_iff Hc]%andb_true_iff.
  destruct l as [|c l]; [done|]. simpl in *.
  apply andb_true_iff in Hp as [Hc1 _]. apply plain_lit in Hc1.
  rewrite (lit_char_not c "{" Hc1 eq_refl). simpl.
  apply negb_true_iff in Hc. by rewrite Hc.
Qed.

Lemma segment_step_Par names sTemp (rest : str) :
  segment_step (names, sTemp) (":" ++ rest)
  = Ok (names ++ [par_name rest], sTemp ++ tok_pattern (Par rest)).
Proof.
  unfold segment_step. cbn [app]. cbv zeta.
  change (chr_eqb ":" "{") with false. change (chr_eqb ":" ":") with true. cbn [andb].
  change (":"%char :: rest) with (":" ++ rest). rewrite Split_colon_lookup_1.
  fold (par_name rest). simpl. by destruct (decide _).
Qed.

Lemma build_pattern_toks (toks : list tok) : ∀ names sTemp,
  forallb good_tok toks = true ->
  build_pattern (names, sTemp) (map tok_seg toks)
  = Ok (names ++ names_of toks, sTemp ++ pattern_of toks).
Proof.
  induction toks as [|t ts IH]; intros names sTemp; cbn [map build_pattern forallb].
  - intros _. by rewrite !app_nil_r.
  - intros [Ht Hts]%andb_true_iff. destruct t as [l|rest].
    + cbn [tok_seg]. rewrite (segment_step_Lit _ _ _ Ht).
      change (mbind ?f (Ok ?a)) with (f a). cbv beta.
      rewrite (IH _ _ Hts). unfold pattern_of. cbn [flat_map names_of].
      by rewrite <- !app_assoc.
    + cbn [tok_seg]. rewrite segment_step_Par.
      change (mbind ?f (Ok ?a)) with (f a). cbv beta.
      rewrite (IH _ _ Hts). unfold pattern_of. cbn [flat_map names_of].
      by rewrite <- !app_assoc.
Qed.

Lemma build_pattern_path_of (toks : list tok) :
  forallb good_tok toks = true ->
  build_pattern ([], []) (Split "/" (path_of toks)) = Ok (names_of toks, pattern_of toks).
Proof.
  intros H. rewrite (Split_path_of _ H). simpl. by rewrite (build_pattern_toks _ _ _ H).
Qed.

(** *** Its syntax tree *)

Lemma parse_loop_app st a b :
  Regexp.parse_loop st (a ++ b)
  = match Regexp.parse_loop st a with
    | Regexp.POk st' => Regexp.parse_loop st' b
    | e => e
    end.
Proof.
  revert st. induction a as [|c a IH]; intros st; simpl; [done|].
  destruct (Regexp.step st c); [apply IH|done|done].
Qed.

Lemma parse_lits (l : str) : ∀ alts items c stack n,
  forallb Regexp.lit_char l = true ->
  Regexp.parse_loop (Regexp.PState (Regexp.Frame alts items c) stack n Regexp.MNormal) l
  = Regexp.POk (Regexp.PState (Regexp.Frame alts (rev (map Regexp.RChar l) ++ items) c)
                              stack n Regexp.MNormal).
Proof.
  induction l as [|x l IH]; intros alts items c stack n; simpl; [done|].
  intros [Hx Hl]%andb_true_iff. unfold Regexp.step, Regexp.step_normal. simpl.
  rewrite Hx. unfold Regexp.push_item, Regexp.add_item. simpl.
  rewrite (IH _ _ _ _ _ Hl). by rewrite <- app_assoc.
Qed.

Lemma parse_group (rest : str) alts items c n :
  Regexp.parse_loop (Regexp.PState (Regexp.Frame alts items c) [] n Regexp.MNormal)
    ("(" ++ (if decide (par_name rest = idKey) then idPattern else defaultPattern) ++ ")")
  = Regexp.POk (Regexp.PState
      (Regexp.Frame alts
         (Regexp.RGroup (S n)
            (Regexp.RCat (Regexp.RPlus (Regexp.RClass false (par_class rest))) Regexp.REmpty)
          :: items) c) [] (S n) Regexp.MNormal).
Proof. unfold par_class. destruct (decide _); reflexivity. Qed.

Lemma parse_pattern_of (toks : list tok) : ∀ items n,
  forallb good_tok toks = true ->
  Regexp.parse_loop (Regexp.PState (Regexp.Frame [] items 0) [] n Regexp.MNormal)
                    (pattern_of toks)
  = Regexp.POk (Regexp.PState (Regexp.Frame [] (rev (items_of n toks) ++ items) 0) []
                              (n + length (names_of toks)) Regexp.MNormal).
Proof.
  induction toks as [|t ts IH]; intros items n; simpl.
  - intros _. by rewrite Nat.add_0_r.
  - intros [Ht Hts]%andb_true_iff. unfold pattern_of. cbn [flat_map].
    rewrite parse_loop_app. destruct t as [l|rest].
    + simpl in Ht. apply andb_true_iff in Ht as [[_ Hp]%andb_true_iff _].
      assert (forallb Regexp.lit_char ("/" ++ l) = true) as Hl.
      { simpl. apply forallb_forall. intros x Hx.
        rewrite forallb_forall in Hp. by apply plain_lit, Hp. }
      cbn [tok_pattern]. rewrite (parse_lits _ _ _ _ _ _ Hl).
      fold (pattern_of ts). rewrite (IH _ _ Hts). cbn [items_of].
      change (Regexp.RChar "/" :: map Regexp.RChar l ++ items_of n ts)
        with (map Regexp.RChar ("/" ++ l) ++ items_of n ts).
      by rewrite rev_app_distr, <- app_assoc.
    + cbn [tok_pattern].
      change ("/" ++ "(" ++ ?x ++ ")") with ("/" ++ ("(" ++ x ++ ")")).
      rewrite parse_loop_app. rewrite (parse_lits "/" _ _ _ _ _ eq_refl).
      rewrite parse_group.
      fold (pattern_of ts). rewrite (IH _ _ Hts). cbn [items_of names_of length].
      do 2 f_equal; [|lia]. f_equal. simpl. by rewrite <- !app_assoc.
Qed.

Lemma MustCompile_pattern_of (toks : list tok) :
  forallb good_tok toks = true ->
  Regexp.MustCompile (pattern_of toks)
  = Ok (Regexp.MkRegexp (Regexp.seq_of (items_of 0 toks)) (length (names_of toks))).
Proof.
  intros H. unfold Regexp.MustCompile, Regexp.init_state.
  rewrite (parse_pattern_of _ _ _ H). unfold Regexp.finish, Regexp.close_frame. simpl.
  by rewrite app_nil_r, rev_involutive.
Qed.

(** ** Matching the expression of a simple route *)

Section Matching.
Context {R : Type}.
Implicit Types (k : @Regexp.cont R) (caps : Regexp.captures).

Lemma rmatch_chars_complete (l : str) rest s' caps k :
  Regexp.rmatch (Regexp.seq_of (map Regexp.RChar l ++ rest)) (l ++ s') caps k
  = Regexp.rmatch (Regexp.seq_of rest) s' caps k.
Proof.
  induction l as [|c l IH]; simpl; [done|]. by rewrite chr_eqb_refl.
Qed.

Lemma rmatch_chars_sound (l : str) rest : ∀ s caps k x,
  Regexp.rmatch (Regexp.seq_of (map Regexp.RChar l ++ rest)) s caps k = Some x ->
  ∃ s', s = l ++ s' ∧ Regexp.rmatch (Regexp.seq_of rest) s' caps k = Some x.
Proof.
  induction l as [|c l IH]; intros s caps k x; simpl.
  - intros H. by exists s.
  - destruct s as [|y s]; [done|]. destruct (chr_eqb y c) eqn:E; [|done].
    apply chr_eqb_eq in E. subst y. intros (s' & -> & H)%IH. by exists s'.
Qed.

Lemma rmatch_class_cons rs (y : ascii) (s : str) caps k :
  Regexp.rmatch (Regexp.RClass false rs) (y :: s) caps k
  = if Regexp.in_ranges y rs then k s caps else None.
Proof. done. Qed.

Lemma rmatch_class_nil rs caps k :
  Regexp.rmatch (Regexp.RClass false rs) [] caps k = None.
Proof. done. Qed.

(** The greedy loop over a class takes characters of the class only. *)
Lemma star_class_sound rs n : ∀ s caps k x,
  Regexp.star_loop (Regexp.rmatch (Regexp.RClass false rs)) n s caps k = Some x ->
  ∃ w s', s = w ++ s' ∧ forallb (fun c => Regexp.in_ranges c rs) w = true
          ∧ k s' caps = Some x.
Proof.
  induction n as [|n IH]; intros s caps k x; simpl.
  - intros H. by exists [], s.
  - destruct s as [|y s].
    + intros H. by exists [], [].
    + simpl. destruct (Regexp.in_ranges y rs) eqn:Ey.
      * assert ((length s <? S (length s)) = true) as -> by (apply Nat.ltb_lt; lia).
        destruct (Regexp.star_loop _ n s caps k) as [x'|] eqn:El.
        -- intros [= <-]. apply IH in El as (w & s' & -> & Hw & Hk).
           exists (y :: w), s'. simpl. by rewrite Ey.
        -- intros H. by exists [], (y :: s).
      * intros H. by exists [], (y :: s).
Qed.

(** It takes all of them when what follows is no character of the
    class and the continuation accepts there. *)
Lemma star_class_complete rs (w : str) : ∀ n s' caps k x,
  forallb (fun c => Regexp.in_ranges c rs) w = true ->
  match s' with [] => True | c :: _ => Regexp.in_ranges c rs = false end ->
  length w <= n ->
  k s' caps = Some x ->
  Regexp.star_loop (Regexp.rmatch (Regexp.RClass false rs)) n (w ++ s') caps k = Some x.
Proof.
  induction w as [|y w IH]; intros n s' caps k x Hw Hs Hn Hk.
  - destruct n as [|n]; cbn [app Regexp.star_loop]; [done|].
    destruct s' as [|c s']; [by rewrite rmatch_class_nil|].
    by rewrite rmatch_class_cons, Hs.
  - simpl in Hw. apply andb_true_iff in Hw as [Hy Hw].
    destruct n as [|n]; [simpl in Hn; lia|].
    change ((y :: w) ++ s') with (y :: (w ++ s')). cbn [Regexp.star_loop].
    rewrite rmatch_class_cons, Hy.
    assert ((length (w ++ s') <? length (y :: w ++ s')) = true) as ->
      by (apply Nat.ltb_lt; simpl; lia).
    by rewrite (IH n s' caps k x Hw Hs ltac:(simpl in Hn; lia) Hk).
Qed.

Lemma rmatch_group_sound i rs rest s caps k x :
  Regexp.rmatch
    (Regexp.RCat (Regexp.RGroup i
       (Regexp.RCat (Regexp.RPlus (Regexp.RClass false rs)) Regexp.REmpty)) rest)
    s caps k = Some x ->
  ∃ v s', s = v ++ s' ∧ class_plus rs v = true
          ∧ Regexp.rmatch rest s' (Regexp.set_cap i v caps) k = Some x.
Proof.
  simpl. destruct s as [|y s]; [done|].
  destruct (Regexp.in_ranges y rs) eqn:Ey; [|done].
  intros (w & s' & -> & Hw & Hk)%star_class_sound.
  exists (y :: w), s'. split; [done|]. split.
  - unfold class_plus. simpl. by rewrite Ey.
  - revert Hk. simpl. rewrite length_app.
    replace (S (length w + length s') - length s') with (S (length w)) by lia.
    simpl. by rewrite take_app_length.
Qed.

Lemma rmatch_group_complete i rs rest (v s' : str) caps k x :
  class_plus rs v = true ->
  match s' with [] => True | c :: _ => Regexp.in_ranges c rs = false end ->
  Regexp.rmatch rest s' (Regexp.set_cap i v caps) k = Some x ->
  Regexp.rmatch
    (Regexp.RCat (Regexp.RGroup i
       (Regexp.RCat (Regexp.RPlus (Regexp.RClass false rs)) Regexp.REmpty)) rest)
    (v ++ s') caps k = Some x.
Proof.
  unfold class_plus. intros [Hne Hv]%andb_true_iff Hs Hk.
  destruct v as [|y w]; [done|]. simpl in Hv. apply andb_true_iff in Hv as [Hy Hw].
  simpl. rewrite Hy.
  apply (star_class_complete rs w _ s' caps _ x Hw Hs); [by rewrite length_app; lia|].
  simpl. rewrite length_app.
  replace (S (length w + length s') - length s') with (S (length w)) by lia.
  simpl. by rewrite take_app_length.
Qed.

Lemma slash_not_in_class (rest : str) : Regexp.in_ranges "/" (par_class rest) = false.
Proof. unfold par_class. by destruct (decide _). Qed.

Lemma inst_segs_head toks vals :
  match flat_map (fun seg : str => "/" ++ seg) (inst_segs toks vals) with
  | [] => True
  | c :: _ => c = "/"%char
  end.
Proof. by destruct (inst_segs toks vals). Qed.

Lemma rmatch_toks_sound (toks : list tok) : ∀ i s caps k x,
  Regexp.rmatch (Regexp.seq_of (items_of i toks)) s caps k = Some x ->
  ∃ vals s', ok_vals toks vals = true ∧ s = inst toks vals ++ s'
             ∧ k s' (set_caps i vals caps) = Some x.
Proof.
  induction toks as [|t ts IH]; intros i s caps k x.
  - simpl. intros H. by exists [], s.
  - destruct t as [l|rest]; cbn [items_of].
    + change (Regexp.RChar "/" :: map Regexp.RChar l ++ items_of i ts)
        with (map Regexp.RChar ("/" ++ l) ++ items_of i ts).
      intros (s1 & -> & H)%rmatch_chars_sound.
      apply IH in H as (vals & s' & Hok & -> & Hk).
      exists vals, s'. split; [done|]. split; [|done].
      unfold inst. simpl. by rewrite <- ?app_assoc.
    + change (Regexp.RChar "/" :: ?g :: items_of (S i) ts)
        with (map Regexp.RChar "/" ++ g :: items_of (S i) ts).
      intros (s1 & -> & H)%rmatch_chars_sound.
      cbn [Regexp.seq_of] in H.
      apply rmatch_group_sound in H as (v & s2 & -> & Hv & H).
      apply IH in H as (vals & s' & Hok & -> & Hk).
      exists (v :: vals), s'. split; [simpl; by rewrite Hv|]. split; [|done].
      unfold inst. simpl. by rewrite <- ?app_assoc.
Qed.

Lemma rmatch_toks_complete (toks : list tok) : ∀ i vals caps k x,
  ok_vals toks vals = true ->
  k [] (set_caps i vals caps) = Some x ->
  Regexp.rmatch (Regexp.seq_of (items_of i toks)) (inst toks vals) caps k = Some x.
Proof.
  induction toks as [|t ts IH]; intros i vals caps k x.
  - destruct vals; [|done]. by simpl.
  - destruct t as [l|rest]; cbn [items_of ok_vals].
    + intros Hok Hk.
      change (Regexp.RChar "/" :: map Regexp.RChar l ++ items_of i ts)
        with (map Regexp.RChar ("/" ++ l) ++ items_of i ts).
      replace (inst (Lit l :: ts) vals) with (("/" ++ l) ++ inst ts vals)
        by (unfold inst; simpl; by rewrite <- ?app_assoc).
      rewrite rmatch_chars_complete. by apply IH.
    + destruct vals as [|v vs]; [done|].
      intros [Hv Hok]%andb_true_iff Hk.
      change (Regexp.RChar "/" :: ?g :: items_of (S i) ts)
        with (map Regexp.RChar "/" ++ g :: items_of (S i) ts).
      replace (inst (Par rest :: ts) (v :: vs)) with ("/" ++ (v ++ inst ts vs))
        by (unfold inst; simpl; by rewrite <- ?app_assoc).
      rewrite rmatch_chars_complete. cbn [Regexp.seq_of].
      apply rmatch_group_complete; [done| |by apply IH].
      pose proof (inst_segs_head ts vs) as Hh. unfold inst.
      destruct (flat_map _ _); [done|]. subst. apply slash_not_in_class.
Qed.
End Matching.

(** ** The search and the binding of the parameters *)

Lemma find_from_sound re : ∀ s whole caps,
  Regexp.find_from re s = Some (whole, caps) ->
  ∃ pre suf s',
    s = pre ++ suf
    ∧ Regexp.rmatch (Regexp.re_tree re) suf (replicate (Regexp.re_ncap re) None) accept
      = Some (s', caps)
    ∧ whole = take (length suf - length s') suf.
Proof.
  assert (Hhere : ∀ s whole caps,
    match Regexp.rmatch (Regexp.re_tree re) s (replicate (Regexp.re_ncap re) None) accept with
    | Some (s', caps') => Some (take (length s - length s') s, caps')
    | None => None
    end = Some (whole, caps) ->
    ∃ pre suf s', s = pre ++ suf
      ∧ Regexp.rmatch (Regexp.re_tree re) suf (replicate (Regexp.re_ncap re) None) accept
        = Some (s', caps)
      ∧ whole = take (length suf - length s') suf).
  { intros s whole caps H.
    destruct (Regexp.rmatch _ s _ accept) as [[s' caps']|] eqn:E; [|done].
    injection H as <- <-. by exists [], s, s'. }
  induction s as [|c s IH]; intros whole caps.
  - simpl. fold accept. intros H.
    apply Hhere. by destruct (Regexp.rmatch _ _ _ accept) as [[? ?]|].
  - cbn [Regexp.find_from]. fold accept.
    destruct (Regexp.rmatch _ (c :: s) _ accept) as [[s' caps']|] eqn:E.
    + intros H. apply Hhere. by rewrite E.
    + intros (pre & suf & s' & -> & Hm & Hw)%IH. by exists (c :: pre), suf, s'.
Qed.

Lemma find_from_complete re s s' caps :
  Regexp.rmatch (Regexp.re_tree re) s (replicate (Regexp.re_ncap re) None) accept
  = Some (s', caps) ->
  Regexp.find_from re s = Some (take (length s - length s') s, caps).
Proof.
  intros H. destruct s; simpl; fold accept; by rewrite H.
Qed.

Lemma ok_vals_length (toks : list tok) : ∀ vals,
  ok_vals toks vals = true -> length vals = length (names_of toks).
Proof.
  induction toks as [|[l|rest] ts IH]; intros vals; simpl.
  - by destruct vals.
  - apply IH.
  - destruct vals as [|v vs]; [done|]. intros [_ H]%andb_true_iff. simpl. by rewrite (IH vs).
Qed.

Lemma set_caps_replicate (vals : list str) : ∀ (pre : Regexp.captures),
  set_caps (length pre) vals (pre ++ replicate (length vals) None) = pre ++ (Some <$> vals).
Proof.
  induction vals as [|v vs IH]; intros pre; simpl; [done|].
  unfold Regexp.set_cap. simpl.
  replace (<[length pre:=Some v]> (pre ++ None :: replicate (length vs) None))
    with ((pre ++ [Some v]) ++ replicate (length vs) None).
  - replace (S (length pre)) with (length (pre ++ [Some v])) by (rewrite length_app; simpl; lia).
    rewrite IH. by rewrite <- app_assoc.
  - rewrite <- app_assoc. simpl.
    rewrite insert_app_r_alt by lia. by rewrite Nat.sub_diag.
Qed.

Lemma bind_params_vals (names vals : list str) : ∀ m,
  length names = length vals ->
  bind_params names (Some <$> vals) m
  = Ok (fold_left (fun m p => <[p.1 := p.2]> m) (zip names vals) m).
Proof.
  revert vals. induction names as [|n ns IH]; intros [|v vs] m; simpl; try done.
  intros [= H]. by rewrite IH.
Qed.

Lemma rune_sensitive_items (toks : list tok) : ∀ i,
  Regexp.rune_sensitive (Regexp.seq_of (items_of i toks)) = false.
Proof.
  induction toks as [|[l|rest] ts IH]; intros i; simpl; [done| |apply IH].
  induction l as [|c l IHl]; simpl; [apply IH|apply IHl].
Qed.

(** What [matchAndParse] does on a simple route once the expression is
    built: the search from the left, the whole-path test, the binding. *)
Lemma matchAndParse_simple (requestUrl : str) (toks : list tok) :
  forallb good_tok toks = true ->
  matchAndParse requestUrl (path_of toks)
  = match Regexp.find_from
            (Regexp.MkRegexp (Regexp.seq_of (items_of 0 toks)) (length (names_of toks)))
            requestUrl with
    | Some (whole, groups) =>
        if decide (whole = requestUrl)
        then m ← bind_params (names_of toks) groups ∅; Ok (Some m)
        else Ok None
    | None => Ok None
    end.
Proof.
  intros H. unfold matchAndParse.
  rewrite (build_pattern_path_of _ H).
  change (mbind ?f (Ok ?a)) with (f a). cbv beta iota.
  rewrite (MustCompile_pattern_of _ H).
  change (mbind ?f (Ok ?a)) with (f a). cbv beta.
  unfold Regexp.FindSubmatch. cbn [Regexp.re_tree]. rewrite rune_sensitive_items.
  done.
Qed.

(** A simple route matches the paths that carry fitting values, and
    binds the values to the names. *)
Lemma simple_route_sound (requestUrl : str) (toks : list tok) (m : paramsMapType) :
  forallb good_tok toks = true ->
  matchAndParse requestUrl (path_of toks) = Ok (Some m) ->
  ∃ vals, ok_vals toks vals = true ∧ requestUrl = inst toks vals
          ∧ m = bind_all (names_of toks) vals.
Proof.
  intros H. rewrite (matchAndParse_simple _ _ H).
  destruct (Regexp.find_from _ _) as [[whole groups]|] eqn:Ef; [|done].
  destruct (decide (whole = requestUrl)) as [->|]; [|done].
  apply find_from_sound in Ef as (pre & suf & s' & Hs & Hm & Hw).
  cbn [Regexp.re_tree Regexp.re_ncap] in Hm.
  apply rmatch_toks_sound in Hm as (vals & s2 & Hok & -> & Hk).
  unfold accept in Hk. injection Hk as -> <-.
  assert (pre = [] ∧ s' = []) as [-> ->].
  { assert (length requestUrl = length (inst toks vals)) as Hl.
    { rewrite Hw at 1. rewrite length_take, !length_app. lia. }
    rewrite Hs, !length_app in Hl.
    split; apply length_zero_iff_nil; lia. }
  rewrite app_nil_r in Hs. simpl in Hs. subst requestUrl.
  pose proof (ok_vals_length _ _ Hok) as Hlen. rewrite <- Hlen.
  pose proof (set_caps_replicate vals []) as Hc. simpl in Hc. rewrite Hc.
  rewrite bind_params_vals by done.
  intros [= <-]. by exists vals.
Qed.

Lemma simple_route_complete (toks : list tok) (vals : list str) :
  forallb good_tok toks = true ->
  ok_vals toks vals = true ->
  matchAndParse (inst toks vals) (path_of toks)
  = Ok (Some (bind_all (names_of toks) vals)).
Proof.
  intros H Hok. rewrite (matchAndParse_simple _ _ H).
  pose proof (ok_vals_length _ _ Hok) as Hlen.
  rewrite (find_from_complete _ _ [] (Some <$> vals)).
  - simpl. rewrite Nat.sub_0_r, firstn_all. rewrite decide_True by done.
    by rewrite bind_params_vals.
  - cbn [Regexp.re_tree Regexp.re_ncap].
    apply rmatch_toks_complete; [done|]. unfold accept. rewrite <- Hlen.
    pose proof (set_caps_replicate vals []) as Hc. simpl in Hc. by rewrite Hc.
Qed.

(** It neither panics nor leaves the embedded fragment. *)
Lemma simple_route_total (requestUrl : str) (toks : list tok) :
  forallb good_tok toks = true ->
  ∃ r, matchAndParse requestUrl (path_of toks) = Ok r.
Proof.
  intros H. rewrite (matchAndParse_simple _ _ H).
  destruct (Regexp.find_from _ _) as [[whole groups]|] eqn:Ef; [|by eexists].
  destruct (decide (whole = requestUrl)) as [->|]; [|by eexists].
  apply find_from_sound in Ef as (pre & suf & s' & Hs & Hm & Hw).
  cbn [Regexp.re_tree Regexp.re_ncap] in Hm.
  apply rmatch_toks_sound in Hm as (vals & s2 & Hok & -> & Hk).
  unfold accept in Hk. injection Hk as -> <-.
  pose proof (ok_vals_length _ _ Hok) as Hlen. rewrite <- Hlen.
  pose proof (set_caps_replicate vals []) as Hc. simpl in Hc. rewrite Hc.
  rewrite bind_params_vals by done. by eexists.
Qed.

(** ** Static prefixes *)

Lemma path_of_app (a b : list tok) : path_of (a ++ b) = path_of a ++ path_of b.
Proof. unfold path_of. apply flat_map_app. Qed.

Lemma inst_segs_lits (lits : list str) (ts : list tok) (vals : list str) :
  inst_segs (map Lit lits ++ ts) vals = lits ++ inst_segs ts vals.
Proof. induction lits as [|l lits IH]; [done|]. simpl. by rewrite IH. Qed.

Lemma inst_lits (lits : list str) (ts : list tok) (vals : list str) :
  inst (map Lit lits ++ ts) vals = path_of (map Lit lits) ++ inst ts vals.
Proof.
  unfold inst. rewrite inst_segs_lits, flat_map_app, path_of_flat. f_equal.
  rewrite map_map. simpl. by rewrite map_id.
Qed.

Lemma ok_vals_lits (lits : list str) (ts : list tok) (vals : list str) :
  ok_vals (map Lit lits ++ ts) vals = ok_vals ts vals.
Proof. induction lits as [|l lits IH]; [done|]. exact IH. Qed.

Lemma names_of_lits (lits : list str) (ts : list tok) :
  names_of (map Lit lits ++ ts) = names_of ts.
Proof. induction lits as [|l lits IH]; [done|]. exact IH. Qed.

(** ** The class of a colon parameter *)

(** C4: a colon segment matches the request segments made of one or
    more word characters, and binds the segment to the name; when the
    name is id it matches the segments made of one or more digits.  The
    name is the text between the colon and the next colon, if any; the
    route may begin with static segments. *)
Theorem colon_parameter_class (lits : list str) (rest s : str) :
  forallb good_tok (map Lit lits) = true ->
  no_slash rest = true ->
  matchAndParse (path_of (map Lit lits) ++ "/" ++ s)
                (path_of (map Lit lits) ++ "/" ++ ":" ++ rest)
  = Ok (if (if decide (par_name rest = "id")
            then class_plus Regexp.digit_ranges s
            else class_plus Regexp.word_ranges s)
        then Some {[ par_name rest := s ]}
        else None).
Proof.
  intros Hl Hr.
  set (toks := map Lit lits ++ [Par rest]).
  assert (Hg : forallb good_tok toks = true).
  { unfold toks. rewrite forallb_app, Hl. simpl. by rewrite Hr. }
  assert (Hp : path_of (map Lit lits) ++ "/" ++ ":" ++ rest = path_of toks).
  { unfold toks. rewrite path_of_app. unfold path_of at 3. simpl. by rewrite app_nil_r. }
  assert (Hi : ∀ v, path_of (map Lit lits) ++ "/" ++ v = inst toks [v]).
  { intros v. unfold toks. rewrite inst_lits. unfold inst. simpl. by rewrite app_nil_r. }
  assert (Hc : (if decide (par_name rest = "id")
                then class_plus Regexp.digit_ranges s
                else class_plus Regexp.word_ranges s) = class_plus (par_class rest) s).
  { unfold par_class, idKey. by destruct (decide _). }
  rewrite Hc, Hp, Hi.
  destruct (class_plus (par_class rest) s) eqn:Ec.
  - rewrite simple_route_complete; [|done|].
    + unfold toks. by rewrite names_of_lits.
    + unfold toks. rewrite ok_vals_lits. simpl. by rewrite Ec.
  - destruct (simple_route_total (inst toks [s]) toks Hg) as [[m|] Hm]; [|done].
    apply simple_route_sound in Hm as (vals & Hok & Heq & _); [|done].
    unfold toks in Hok. rewrite ok_vals_lits in Hok.
    destruct vals as [|v [|? ?]]; simpl in Hok; rewrite ?andb_false_r in Hok; try done.
    apply andb_true_iff in Hok as [Hv _].
    rewrite <- !Hi in Heq. apply app_inv_head in Heq. injection Heq as ->. congruence.
Qed.

Lemma colon_parameter_class_witness :
  forallb good_tok (map Lit ["users"]) = true ∧ no_slash "id" = true ∧
  matchAndParse "/users/42" "/users/:id" = Ok (Some {[ "id" := "42" ]}) ∧
  matchAndParse "/users/abc" "/users/:id" = Ok None ∧
  matchAndParse "/users/abc" "/users/:name" = Ok (Some {[ "name" := "abc" ]}).
Proof.
  split; [reflexivity|]. split; [reflexivity|]. split; [|split].
  - exact (colon_parameter_class ["users"] "id" "42" eq_refl eq_refl).
  - exact (colon_parameter_class ["users"] "id" "abc" eq_refl eq_refl).
  - exact (colon_parameter_class ["users"] "name" "abc" eq_refl eq_refl).
Defined.

(** ** Static segments *)

Lemma class_plus_no_slash (rest v : str) :
  class_plus (par_class rest) v = true -> no_slash v = true.
Proof.
  unfold class_plus, no_slash. intros [_ H]%andb_true_iff.
  rewrite forallb_forall in *. intros c Hc. apply H in Hc.
  apply negb_true_iff, chr_eqb_neq. intros ->. by rewrite slash_not_in_class in Hc.
Qed.

Lemma inst_segs_no_slash (toks : list tok) : ∀ vals,
  forallb good_tok toks = true -> ok_vals toks vals = true ->
  Forall (fun s => no_slash s = true) (inst_segs toks vals).
Proof.
  induction toks as [|[l|rest] ts IH]; intros vals; simpl; [by constructor| |].
  - intros [Hl Hts]%andb_true_iff Hok. constructor; [|by apply IH].
    by apply (good_tok_no_slash (Lit l)).
  - destruct vals as [|v vs]; [done|].
    intros [_ Hts]%andb_true_iff [Hv Hok]%andb_true_iff.
    constructor; [by apply (class_plus_no_slash rest)|by apply IH].
Qed.

Lemma inst_segs_static (toks : list tok) : ∀ vals,
  ok_vals toks vals = true ->
  Forall2 (fun t seg => ∀ l, t = Lit l -> seg = l) toks (inst_segs toks vals).
Proof.
  induction toks as [|[l|rest] ts IH]; intros vals; simpl; [by constructor| |].
  - intros Hok. constructor; [by intros ? [= <-]|by apply IH].
  - destruct vals as [|v vs]; [done|]. intros [_ Hok]%andb_true_iff.
    constructor; [done|by apply IH].
Qed.

(** C3, as the code has it: the text of a static segment is part of the
    expression, unescaped, so a static segment with a dot matches another
    segment. *)
Lemma static_segment_dot_counterexample :
  matchAndParse "/abc" "/a.c" = Ok (Some ∅) ∧
  Split "/" "/a.c" = [""; "a.c"] ∧ Split "/" "/abc" = [""; "abc"] ∧ "a.c" ≠ "abc".
Proof.
  split; [vm_compute; reflexivity|]. split; [reflexivity|]. split; [reflexivity|].
  discriminate.
Qed.

(** C3, amended: in a route of colon parameters and of static segments
    that hold none of the characters of the expression syntax, a request
    path is matched only when it has one segment for each segment of the
    route and every static segment is equal, character for character, to
    the request segment at its place. *)
Theorem static_segments_verbatim (toks : list tok) (requestUrl : str) (m : paramsMapType) :
  forallb good_tok toks = true ->
  matchAndParse requestUrl (path_of toks) = Ok (Some m) ->
  ∃ segs, Split "/" requestUrl = [] :: segs
          ∧ Forall2 (fun t seg => ∀ l, t = Lit l -> seg = l) toks segs.
Proof.
  intros Hg (vals & Hok & -> & _)%simple_route_sound; [|done].
  exists (inst_segs toks vals). split.
  - unfold inst. apply Split_slash_flat. by apply inst_segs_no_slash.
  - by apply inst_segs_static.
Qed.

Lemma static_segments_verbatim_witness :
  forallb good_tok [Lit "users"; Par "id"; Lit "edit"] = true ∧
  matchAndParse "/users/42/edit" "/users/:id/edit" = Ok (Some {[ "id" := "42" ]}) ∧
  ∃ segs, Split "/" "/users/42/edit" = [] :: segs
          ∧ Forall2 (fun t seg => ∀ l, t = Lit l -> seg = l)
                    [Lit "users"; Par "id"; Lit "edit"] segs.
Proof.
  assert (Hm : matchAndParse "/users/42/edit" (path_of [Lit "users"; Par "id"; Lit "edit"])
               = Ok (Some {[ "id" := "42" ]})) by (vm_compute; reflexivity).
  split; [reflexivity|]. split; [exact Hm|].
  exact (static_segments_verbatim [Lit "users"; Par "id"; Lit "edit"] "/users/42/edit"
           {[ "id" := "42" ]} eq_refl Hm).
Defined.

(** ** Substituting the values back *)

Lemma Join_cons (sep a : str) (l : list str) :
  Join sep (a :: l) = a ++ flat_map (fun s => sep ++ s) l.
Proof.
  revert a. induction l as [|b l IH]; intros a.
  - simpl. by rewrite app_nil_r.
  - change (Join sep (a :: b :: l)) with (a ++ sep ++ Join sep (b :: l)).
    rewrite IH. simpl. by rewrite <- ?app_assoc.
Qed.

Lemma segment_name_nil : segment_name [] = None.
Proof. done. Qed.

Lemma segment_name_Lit (l : str) : good_tok (Lit l) = true -> segment_name l = None.
Proof.
  intros H. unfold segment_name. by rewrite (segment_step_Lit [] [] l H).
Qed.

Lemma segment_name_Par (rest : str) : segment_name (":" ++ rest) = Some (par_name rest).
Proof. unfold segment_name. by rewrite segment_step_Par. Qed.

Lemma fold_insert_lookup (names vals : list str) : ∀ (m0 : paramsMapType) j n v,
  NoDup names ->
  names !! j = Some n -> vals !! j = Some v ->
  fold_left (fun m p => <[p.1 := p.2]> m) (zip names vals) m0 !! n = Some v.
Proof.
  assert (Hother : ∀ (names vals : list str) (m0 : paramsMapType) n,
    n ∉ names ->
    fold_left (fun m p => <[p.1 := p.2]> m) (zip names vals) m0 !! n = m0 !! n).
  { clear. induction names as [|n0 ns IH]; intros [|v0 vs] m0 n Hn; simpl; try done.
    apply not_elem_of_cons in Hn as [Hne Hn]. rewrite IH by done.
    by rewrite lookup_insert_ne. }
  revert vals. induction names as [|n0 ns IH]; intros vals m0 j n v Hnd Hn Hv.
  { by destruct j. }
  destruct vals as [|v0 vs]; [by destruct j|].
  apply NoDup_cons in Hnd as [Hn0 Hnd].
  destruct j as [|j]; simpl in *.
  - injection Hn as ->. injection Hv as ->. rewrite Hother by done. apply lookup_insert_eq.
  - by apply (IH vs _ j).
Qed.

Lemma substitute_segs (m : paramsMapType) (toks : list tok) : ∀ vals,
  forallb good_tok toks = true -> ok_vals toks vals = true ->
  (∀ j n v, names_of toks !! j = Some n -> vals !! j = Some v -> m !! n = Some v) ->
  map (fun seg => match segment_name seg with
                  | Some name => default [] (m !! name)
                  | None => seg
                  end) (map tok_seg toks)
  = inst_segs toks vals.
Proof.
  induction toks as [|[l|rest] ts IH]; intros vals; [done| |].
  - cbn [forallb ok_vals names_of map inst_segs tok_seg].
    intros [Hl Hts]%andb_true_iff Hok Hm.
    rewrite (segment_name_Lit l Hl). f_equal. by apply IH.
  - cbn [forallb ok_vals names_of map inst_segs tok_seg].
    destruct vals as [|v vs]; [done|].
    intros [_ Hts]%andb_true_iff [_ Hok]%andb_true_iff Hm.
    rewrite segment_name_Par, (Hm 0 (par_name rest) v eq_refl eq_refl). simpl.
    f_equal. apply IH; [done|done|]. intros j n v' Hn Hv. by apply (Hm (S j)).
Qed.

(** C9, as the code has it: the values are bound by name, so a route
    that uses a name twice keeps the last value only. *)
Lemma substitute_duplicate_name_counterexample :
  matchAndParse "/x/y" "/:a/:a" = Ok (Some {[ "a" := "y" ]}) ∧
  substitute {[ "a" := "y" ]} "/:a/:a" = "/y/y" ∧
  substitute {[ "a" := "y" ]} "/:a/:a" ≠ "/x/y".
Proof.
  assert (H : substitute {[ "a" := "y" ]} "/:a/:a" = "/y/y") by (vm_compute; reflexivity).
  split; [vm_compute; reflexivity|]. split; [exact H|]. rewrite H. discriminate.
Qed.

(** ** Registration *)

(** X1: [Handle] takes the five methods of the table only, spelled in
    capitals: any other method makes it panic with the invalid-method
    error, whatever the path and the handler. *)
Theorem Handle_invalid_method (router : Router) (trees : gmap str Tree)
    (method path : str) (h : option HandlerFunc) :
  method ∉ ["GET"; "POST"; "PUT"; "DELETE"; "PATCH"] ->
  Handle router trees method path h = Panic ErrInvalidMethod.
Proof.
  intros Hn. unfold Handle.
  assert (methods !! method = None) as ->; [|done].
  unfold methods. rewrite !lookup_insert_None, lookup_singleton_None.
  repeat split; intros <-; apply Hn; set_solver.
Qed.

Lemma Handle_invalid_method_witness :
  ("get" ∉ ["GET"; "POST"; "PUT"; "DELETE"; "PATCH"]) ∧
  Handle New.1 New.2 "get" "/users" (Some (say "users")) = Panic ErrInvalidMethod.
Proof.
  assert (Hn : "get" ∉ ["GET"; "POST"; "PUT"; "DELETE"; "PATCH"])
    by (apply (bool_decide_unpack _); vm_compute; reflexivity).
  split; [exact Hn|].
  exact (Handle_invalid_method New.1 New.2 "get" "/users" (Some (say "users")) Hn).
Defined.

(** ** The loop over the segments of the route *)

Lemma segment_step_nil acc : segment_step acc [] = Ok acc.
Proof. by destruct acc. Qed.

Lemma build_pattern_segments acc (segs : list str) :
  build_pattern acc segs = build_pattern acc (filter (fun seg => seg ≠ []) segs).
Proof.
  revert acc. induction segs as [|seg segs IH]; intros acc; [done|].
  destruct (decide (seg = [])) as [->|Hne].
  - rewrite filter_cons_False by (by intros ?). cbn [build_pattern].
    rewrite segment_step_nil. apply IH.
  - rewrite filter_cons_True by done. cbn [build_pattern].
    destruct (segment_step acc seg) as [acc'| |]; [apply IH|done|done].
Qed.

(** X3: the matcher skips the empty segments of the route path: two
    route paths with the same non-empty segments, in the same order,
    match alike, so a doubled, a leading or a trailing slash in a route
    changes nothing for [matchAndParse]. *)
Theorem matchAndParse_skips_empty_segments (requestUrl path1 path2 : str) :
  segments path1 = segments path2 ->
  matchAndParse requestUrl path1 = matchAndParse requestUrl path2.
Proof.
  unfold segments, matchAndParse. intros H.
  by rewrite (build_pattern_segments _ (Split "/" path1)), H, <- build_pattern_segments.
Qed.

Lemma matchAndParse_skips_empty_segments_witness :
  segments "/api//users/:id/" = segments "api/users/:id" ∧
  matchAndParse "/api/users/7" "/api//users/:id/" = matchAndParse "/api/users/7" "api/users/:id".
Proof.
  split; [reflexivity|].
  exact (matchAndParse_skips_empty_segments "/api/users/7" "/api//users/:id/"
           "api/users/:id" eq_refl).
Defined.

(** The loop fails in one way only: the index of line 252. *)
Lemma segment_step_result acc seg :
  (∃ acc', segment_step acc seg = Ok acc')
  ∨ segment_step acc seg = Panic (ErrIndexOutOfRange 252).
Proof.
  destruct acc as [names sTemp]. unfold segment_step.
  destruct seg as [|c rest]; [left; by eexists|].
  destruct (chr_eqb c "{" && chr_eqb (List.last (c :: rest) c) "}").
  - cbv zeta. destruct (Split ":" (inner (c :: rest)) !! 1); [left; by eexists|by right].
  - destruct (chr_eqb c ":") eqn:Ec; [|left; by eexists].
    apply chr_eqb_eq in Ec. subst c. cbv zeta.
    change (":"%char :: rest) with (":" ++ rest). rewrite Split_colon_lookup_1.
    left. destruct (decide _); by eexists.
Qed.

Lemma build_pattern_result (segs : list str) : ∀ acc,
  (∃ acc', build_pattern acc segs = Ok acc')
  ∨ build_pattern acc segs = Panic (ErrIndexOutOfRange 252).
Proof.
  induction segs as [|seg segs IH]; intros acc; simpl; [left; by eexists|].
  destruct (segment_step_result acc seg) as [[acc' ->]| ->]; [apply IH|by right].
Qed.

(** X4: a braced segment without a colon makes the matcher panic on
    every request: the split of its inside has one piece and line 252
    indexes the second.  So does the exported [Match]. *)
Theorem matchAndParse_braced_without_colon (requestUrl path body : str) :
  "{" ++ body ++ "}" ∈ Split "/" path ->
  ":"%char ∉ body ->
  matchAndParse requestUrl path = Panic (ErrIndexOutOfRange 252)
  ∧ Match requestUrl path = Panic (ErrIndexOutOfRange 252).
Proof.
  intros Hin Hn.
  assert (matchAndParse requestUrl path = Panic (ErrIndexOutOfRange 252)) as H.
  { unfold matchAndParse.
    apply list_elem_of_split in Hin as (pre & post & ->).
    rewrite build_pattern_app.
    destruct (build_pattern_result pre ([], [])) as [[[names sTemp] ->]| ->]; [|done].
    change (mbind ?f (Ok ?a)) with (f a). cbv beta. cbn [build_pattern].
    rewrite segment_step_braced. by rewrite (Split_no_sep _ _ Hn). }
  split; [done|]. unfold Match. by rewrite H.
Qed.

Lemma matchAndParse_braced_without_colon_witness :
  ("{" ++ "name" ++ "}" ∈ Split "/" "/users/{name}") ∧ (":"%char ∉ "name") ∧
  Match "/users/bob" "/users/{name}" = Panic (ErrIndexOutOfRange 252).
Proof.
  assert (Hin : "{" ++ "name" ++ "}" ∈ Split "/" "/users/{name}")
    by (apply (bool_decide_unpack _); vm_compute; reflexivity).
  assert (Hn : ":"%char ∉ "name") by (apply (bool_decide_unpack _); vm_compute; reflexivity).
  split; [exact Hin|]. split; [exact Hn|].
  exact (proj2 (matchAndParse_braced_without_colon "/users/bob" "/users/{name}" "name" Hin Hn)).
Defined.

(** X5: a route path without a non-empty segment, the path of a slash
    and the empty path, gives the empty expression: the matcher accepts
    the empty request path only, so not the request path of a slash. *)
Theorem matchAndParse_root_route (requestUrl path : str) :
  segments path = [] ->
  matchAndParse requestUrl path
  = Ok (if decide (requestUrl = []) then Some ∅ else None).
Proof.
  intros H. unfold matchAndParse.
  rewrite build_pattern_segments. fold (segments path). rewrite H.
  destruct requestUrl as [|c s]; [reflexivity|].
  cbn -[decide Nat.sub]. rewrite Nat.sub_diag. reflexivity.
Qed.

Lemma matchAndParse_root_route_witness :
  segments "/" = [] ∧ matchAndParse "/" "/" = Ok None ∧ Match "" "/" = Ok true.
Proof.
  split; [reflexivity|]. split.
  - exact (matchAndParse_root_route "/" "/" eq_refl).
  - unfold Match. rewrite (matchAndParse_root_route "" "/" eq_refl). reflexivity.
Defined.

(** ** Groups and parameter names *)

Section Captures.
Context {R : Type}.
Implicit Types (k : @Regexp.cont R) (caps : Regexp.captures).

Lemma set_cap_length i v caps : length (Regexp.set_cap i v caps) = length caps.
Proof. apply length_insert. Qed.

Lemma star_loop_caps_length (body : @Regexp.matcher R) :
  (∀ s caps k x, body s caps k = Some x ->
     ∃ s' caps', length caps' = length caps ∧ k s' caps' = Some x) ->
  ∀ n s caps k x, Regexp.star_loop body n s caps k = Some x ->
     ∃ s' caps', length caps' = length caps ∧ k s' caps' = Some x.
Proof.
  intros Hbody. induction n as [|n IH]; intros s caps k x; simpl.
  - intros H. by exists s, caps.
  - destruct (body s caps _) as [y|] eqn:Eb.
    + intros [= ->]. apply Hbody in Eb as (s1 & caps1 & Hl & Hk).
      destruct (length s1 <? length s); [|done].
      apply IH in Hk as (s2 & caps2 & Hl2 & Hk2). exists s2, caps2. split; [congruence|done].
    + intros H. by exists s, caps.
Qed.

(** The matcher hands on as many captures as it was given. *)
Lemma rmatch_caps_length (r : Regexp.regex) : ∀ s caps k x,
  Regexp.rmatch r s caps k = Some x ->
  ∃ s' caps', length caps' = length caps ∧ k s' caps' = Some x.
Proof.
  induction r as [|c| |neg rs|r1 IH1 r2 IH2|r1 IH1 r2 IH2|r1 IH1|r1 IH1|r1 IH1|i r1 IH1];
    intros s caps k x; cbn [Regexp.rmatch].
  - intros H. by exists s, caps.
  - destruct s as [|y s]; [done|]. destruct (chr_eqb y c); [|done].
    intros H. by exists s, caps.
  - destruct s as [|y s]; [done|]. destruct (chr_eqb y "010"); [done|].
    intros H. by exists s, caps.
  - destruct s as [|y s]; [done|]. destruct (xorb neg _); [|done].
    intros H. by exists s, caps.
  - intros (s1 & caps1 & Hl1 & H)%IH1. apply IH2 in H as (s2 & caps2 & Hl2 & H).
    exists s2, caps2. split; [congruence|done].
  - destruct (Regexp.rmatch r1 s caps k) as [y|] eqn:E1.
    + intros [= ->]. by apply IH1 in E1.
    + apply IH2.
  - by apply star_loop_caps_length.
  - intros (s1 & caps1 & Hl1 & H)%IH1.
    apply (star_loop_caps_length _ IH1) in H as (s2 & caps2 & Hl2 & H).
    exists s2, caps2. split; [congruence|done].
  - destruct (Regexp.rmatch r1 s caps k) as [y|] eqn:E1.
    + intros [= ->]. by apply IH1 in E1.
    + intros H. by exists s, caps.
  - intros (s1 & caps1 & Hl1 & H)%IH1. eexists s1, _. split; [|exact H].
    by rewrite set_cap_length.
Qed.
End Captures.

Lemma find_from_groups re s whole groups :
  Regexp.find_from re s = Some (whole, groups) -> length groups = Regexp.re_ncap re.
Proof.
  intros (pre & suf & s' & _ & Hm & _)%find_from_sound.
  apply rmatch_caps_length in Hm as (s1 & caps1 & Hl & Hk).
  unfold accept in Hk. injection Hk as _ <-. by rewrite Hl, length_replicate.
Qed.

Lemma bind_params_enough (matchName : list str) : ∀ subMatch m,
  length subMatch <= length matchName -> ∃ m', bind_params matchName subMatch m = Ok m'.
Proof.
  induction matchName as [|n ns IH]; intros [|v vs] m; simpl; try (by eexists); [lia|].
  intros H. apply IH. lia.
Qed.

Lemma bind_params_short (matchName : list str) : ∀ subMatch m,
  length matchName < length subMatch ->
  bind_params matchName subMatch m = Panic (ErrIndexOutOfRange 277).
Proof.
  induction matchName as [|n ns IH]; intros [|v vs] m; simpl; try lia; [done|].
  intros H. apply IH. lia.
Qed.

Lemma bind_params_keys (matchName : list str) : ∀ subMatch m m' key,
  bind_params matchName subMatch m = Ok m' ->
  is_Some (m' !! key) -> is_Some (m !! key) ∨ key ∈ matchName.
Proof.
  induction matchName as [|n ns IH]; intros [|v vs] m m' key; simpl; try done.
  - intros [= <-]. by left.
  - intros [= <-]. by left.
  - intros Hb Hk. destruct (IH _ _ _ _ Hb Hk) as [Hi|Hi]; [|right; by right].
    destruct (decide (n = key)) as [->|Hne]; [right; left|].
    left. by rewrite lookup_insert_ne in Hi.
Qed.

(** X6: the names of the route and the groups of its expression.  When
    the expression has more groups than the route has parameters, as
    with a parenthesis in a static segment or in a braced fragment, the
    matcher never succeeds: it answers no match, or it panics at line
    277 on a match of the whole path.  When it has at most as many, the
    matcher does not panic. *)
Theorem matchAndParse_groups_and_names (requestUrl path pattern : str)
    (matchName : list str) (re : Regexp.Regexp) :
  build_pattern ([], []) (Split "/" path) = Ok (matchName, pattern) ->
  Regexp.MustCompile pattern = Ok re ->
  (length matchName < Regexp.re_ncap re ->
     ∀ m, matchAndParse requestUrl path ≠ Ok (Some m)) ∧
  (Regexp.re_ncap re <= length matchName ->
     ∀ f, matchAndParse requestUrl path ≠ Panic f).
Proof.
  intros Hb Hc. unfold matchAndParse. rewrite Hb.
  change (mbind ?f (Ok ?a)) with (f a). cbv beta iota. rewrite Hc.
  change (mbind ?f (Ok ?a)) with (f a). cbv beta.
  unfold Regexp.FindSubmatch. destruct (_ && _); [by split|].
  change (mbind ?f (Ok ?a)) with (f a). cbv beta.
  destruct (Regexp.find_from re requestUrl) as [[whole groups]|] eqn:Ef; [|by split].
  apply find_from_groups in Ef as Hl.
  destruct (decide (whole = requestUrl)); [|by split]. split.
  - intros Hlt m. by rewrite bind_params_short by lia.
  - intros Hle f. destruct (bind_params_enough matchName groups ∅) as [m' ->]; [lia|done].
Qed.

Lemma matchAndParse_groups_and_names_witness :
  build_pattern ([], []) (Split "/" "/v(1|2)/:id") = Ok (["id"], "/v(1|2)/([\d]+)") ∧
  (∃ re, Regexp.MustCompile "/v(1|2)/([\d]+)" = Ok re ∧ length ["id"] < Regexp.re_ncap re) ∧
  matchAndParse "/v1/7" "/v(1|2)/:id" = Panic (ErrIndexOutOfRange 277) ∧
  (∀ m, matchAndParse "/v1/7" "/v(1|2)/:id" ≠ Ok (Some m)).
Proof.
  assert (Hc : ∃ re, Regexp.MustCompile "/v(1|2)/([\d]+)" = Ok re
                     ∧ length ["id"] < Regexp.re_ncap re).
  { eexists. split; [vm_compute; reflexivity|]. simpl. lia. }
  split; [reflexivity|]. split; [exact Hc|]. split; [vm_compute; reflexivity|].
  destruct Hc as (re & Hc & Hl).
  exact (proj1 (matchAndParse_groups_and_names "/v1/7" "/v(1|2)/:id" "/v(1|2)/([\d]+)"
                  ["id"] re eq_refl Hc) Hl).
Defined.

(** X7: on success the map holds parameters of the route only: every
    key bound in it is a name recorded from a segment of the route
    path. *)
Theorem matchAndParse_binds_route_names (requestUrl path pattern : str)
    (matchName : list str) (m : paramsMapType) (key : str) :
  build_pattern ([], []) (Split "/" path) = Ok (matchName, pattern) ->
  matchAndParse requestUrl path = Ok (Some m) ->
  is_Some (m !! key) -> key ∈ matchName.
Proof.
  intros Hb. unfold matchAndParse. rewrite Hb.
  change (mbind ?f (Ok ?a)) with (f a). cbv beta iota.
  destruct (Regexp.MustCompile pattern) as [re| |]; [|done|done].
  change (mbind ?f (Ok ?a)) with (f a). cbv beta.
  destruct (Regexp.FindSubmatch re requestUrl) as [[[whole groups]|]| |]; try done.
  change (mbind ?f (Ok ?a)) with (f a). cbv beta iota.
  destruct (decide _); [|done].
  destruct (bind_params matchName groups ∅) as [m'| |] eqn:Eb; try done.
  intros [= <-] Hk. destruct (bind_params_keys _ _ _ _ _ Eb Hk) as [Hi|Hi]; [|done].
  rewrite lookup_empty in Hi. by destruct Hi.
Qed.

Lemma matchAndParse_binds_route_names_witness :
  build_pattern ([], []) (Split "/" "/f/{name:[a-z]+}/:id")
  = Ok (["name"; "id"], "/f/([a-z]+)/([\d]+)") ∧
  matchAndParse "/f/bob/7" "/f/{name:[a-z]+}/:id"
  = Ok (Some {[ "name" := "bob"; "id" := "7" ]}) ∧
  is_Some (({[ "name" := "bob"; "id" := "7" ]} : paramsMapType) !! "id") ∧
  "id" ∈ ["name"; "id"].
Proof.
  assert (Hm : matchAndParse "/f/bob/7" "/f/{name:[a-z]+}/:id"
               = Ok (Some {[ "name" := "bob"; "id" := "7" ]})) by (vm_compute; reflexivity).
  assert (Hk : is_Some (({[ "name" := "bob"; "id" := "7" ]} : paramsMapType) !! "id"))
    by (eexists; vm_compute; reflexivity).
  split; [reflexivity|]. split; [exact Hm|]. split; [exact Hk|].
  exact (matchAndParse_binds_route_names "/f/bob/7" "/f/{name:[a-z]+}/:id"
           "/f/([a-z]+)/([\d]+)" ["name"; "id"] _ "id" eq_refl Hm Hk).
Defined.

(** ** The loop over the candidates *)

Lemma try_candidates_passed_over requestUrl r (nodes : list Node) log :
  Forall (passed_over requestUrl) nodes -> try_candidates requestUrl r nodes log = None.
Proof.
  induction 1 as [|node nodes Hp _ IH]; [done|]. cbn [try_candidates].
  destruct (node_handle node) as [handler|] eqn:Eh; [|done].
  destruct (decide (node_path node ≠ requestUrl)) as [Hne|]; [|done].
  destruct Hp as [Hp|[Hp|Hp]]; [congruence|done|]. by rewrite Hp.
Qed.

(** X8: among the candidates the first that matches wins.  The nodes
    before it are passed over, for having no handler, the path of the
    request, or no match; its handler runs under its middleware on the
    request with the parameters attached, and the nodes after it are not
    looked at. *)
Theorem try_candidates_first_match (requestUrl : str) (r : Request)
    (pre post : list Node) (node : Node) (h : HandlerFunc) (m : paramsMapType) (log : Log) :
  Forall (passed_over requestUrl) pre ->
  node_handle node = Some h ->
  node_path node ≠ requestUrl ->
  matchAndParse requestUrl (node_path node) = Ok (Some m) ->
  try_candidates requestUrl r (pre ++ node :: post) log
  = Some (run_user (WithParams r m) (handle (WithParams r m) h (node_middleware node)) log)
  ∧ GetAllParams (WithParams r m) = Some m.
Proof.
  intros Hpre Hh Hne Hm. split; [|done].
  induction Hpre as [|n0 pre Hp _ IH].
  - cbn [app try_candidates]. rewrite Hh, decide_True by done. by rewrite Hm.
  - cbn [app try_candidates].
    destruct (node_handle n0) as [h0|] eqn:Eh; [|done].
    destruct (decide (node_path n0 ≠ requestUrl)) as [Hn0|]; [|done].
    destruct Hp as [Hp|[Hp|Hp]]; [congruence|done|]. by rewrite Hp.
Qed.

Lemma try_candidates_first_match_witness :
  Forall (passed_over "/users/bob") [MkNode "/users/:id" (Some (say "by id")) []] ∧
  matchAndParse "/users/bob" "/users/:name" = Ok (Some {[ "name" := "bob" ]}) ∧
  try_candidates "/users/bob" (get "/users/bob")
    ([MkNode "/users/:id" (Some (say "by id")) []] ++
     MkNode "/users/:name" (Some (say "by name")) [tracing "A"] ::
     [MkNode "/users/{any:.+}" (Some (say "any")) []]) []
  = Some (WithParams (get "/users/bob") {[ "name" := "bob" ]},
          ["enter A"; "by name"; "leave A"], Ok tt).
Proof.
  assert (Hp : Forall (passed_over "/users/bob") [MkNode "/users/:id" (Some (say "by id")) []]).
  { constructor; [|constructor]. right. right. vm_compute. reflexivity. }
  assert (Hm : matchAndParse "/users/bob" "/users/:name" = Ok (Some {[ "name" := "bob" ]}))
    by (vm_compute; reflexivity).
  split; [exact Hp|]. split; [exact Hm|].
  refine (proj1 (try_candidates_first_match "/users/bob" (get "/users/bob")
            [MkNode "/users/:id" (Some (say "by id")) []]
            [MkNode "/users/{any:.+}" (Some (say "any")) []]
            (MkNode "/users/:name" (Some (say "by name")) [tracing "A"])
            (say "by name") {[ "name" := "bob" ]} [] Hp eq_refl _ Hm)).
  discriminate.
Defined.

(** ** Requests that find no route *)

(** X9: when the exact lookup finds nothing and every candidate of the
    first segment is passed over, the request is answered by the
    not-found handler under the middleware of the router; without a
    custom handler the answer is the plain 404 of [http.NotFound], which
    no middleware wraps. *)
Theorem serve_not_found (router : Router) (trees : gmap str Tree) (tree : Tree)
    (r : Request) (prefix : str) (log : Log) :
  trees !! Method r = Some tree ->
  Find tree (URLPath r) 0 = [] ->
  Split "/" (URLPath r) !! 1 = Some prefix ->
  Forall (passed_over (URLPath r)) (Find tree prefix 1) ->
  serve router trees r log = run_user r (HandleNotFound router r (middleware router)) log
  ∧ (notFound router = None ->
     serve router trees r log = (r, log ++ ["404 page not found"], Ok tt)).
Proof.
  intros Hm He Hs Hc.
  assert (serve router trees r log
          = run_user r (HandleNotFound router r (middleware router)) log) as H.
  { unfold serve. rewrite Hm, He. cbn [exact_block]. rewrite Hs.
    by rewrite (try_candidates_passed_over _ _ _ _ Hc). }
  split; [exact H|]. intros Hn. rewrite H. unfold HandleNotFound. by rewrite Hn.
Qed.

Lemma serve_not_found_witness :
  ∃ trees tree,
    register_all ∅ [MkReg New.1 "GET" "/users/:id" (Some (say "user"))] = Ok trees ∧
    trees !! "GET" = Some tree ∧
    Find tree "/users/bob" 0 = [] ∧
    Split "/" "/users/bob" !! 1 = Some "users" ∧
    Forall (passed_over "/users/bob") (Find tree "users" 1) ∧
    serve (Use New.1 [tracing "A"]) trees (get "/users/bob") []
    = (get "/users/bob", ["404 page not found"], Ok tt).
Proof.
  eexists. eexists. split; [vm_compute; reflexivity|].
  split; [vm_compute; reflexivity|].
  assert (He : Find (MkTree ∅ {[ "users" := [MkNode "/users/:id" (Some (say "user")) []] ]})
                    "/users/bob" 0 = []) by reflexivity.
  assert (Hc : Forall (passed_over "/users/bob")
                 (Find (MkTree ∅ {[ "users" := [MkNode "/users/:id" (Some (say "user")) []] ]})
                       "users" 1)).
  { constructor; [|constructor]. right. right. vm_compute. reflexivity. }
  split; [exact He|]. split; [reflexivity|]. split; [exact Hc|].
  refine (proj2 (serve_not_found (Use New.1 [tracing "A"]) _ _ (get "/users/bob") "users" []
                   _ He eq_refl Hc) eq_refl).
  vm_compute. reflexivity.
Defined.

(** ** The deferred function *)

(** ** The index of line 172 *)

Lemma matchAndParse_Panic_sites requestUrl path f :
  matchAndParse requestUrl path = Panic f ->
  f = ErrIndexOutOfRange 252 ∨ f = ErrIndexOutOfRange 277 ∨ ∃ p, f = ErrRegexpCompile p.
Proof.
  unfold matchAndParse.
  destruct (build_pattern_result (Split "/" path) ([], [])) as [[[names pattern] ->]| ->];
    [|intros [= <-]; by left].
  change (mbind ?f (Ok ?a)) with (f a). cbv beta iota.
  destruct (Regexp.MustCompile pattern) as [re| |] eqn:Ec; simpl.
  - destruct (Regexp.FindSubmatch re requestUrl) as [[[whole groups]|]|f0|] eqn:Ef; simpl;
      [|done|by apply FindSubmatch_no_Panic in Ef|done].
    destruct (decide _); [|done].
    destruct (bind_params names groups ∅) eqn:Eb; simpl; try done.
    intros [= <-]. right. left. by apply bind_params_Panic in Eb.
  - intros [= <-]. right. right. apply MustCompile_Panic in Ec. by eexists.
  - done.
Qed.

Lemma run_user_Panic_handler r code log f :
  (run_user r code log).2 = Panic f -> ∃ v, f = ErrHandler v.
Proof.
  unfold run_user. destruct (code log) as [log' [v|]]; simpl; [|done].
  intros [= <-]. by eexists.
Qed.

Lemma try_candidates_not_172 requestUrl r (nodes : list Node) log out :
  try_candidates requestUrl r nodes log = Some out ->
  out.2 ≠ Panic (ErrIndexOutOfRange 172).
Proof.
  induction nodes as [|node nodes IH]; simpl; [done|].
  destruct (node_handle node) as [handler|]; [|done].
  destruct (decide (node_path node ≠ requestUrl)); [|done].
  destruct (matchAndParse requestUrl (node_path node)) as [[m|]|f0|] eqn:E.
  - intros [= <-] H. by apply run_user_Panic_handler in H as [v Hv].
  - done.
  - intros [= <-]. simpl. intros [= ->].
    apply matchAndParse_Panic_sites in E as [E|[E|[p E]]]; discriminate E.
  - by intros [= <-].
Qed.

(** X11: the split of the request path.  For a request whose exact
    lookup finds nothing, the body of [ServeHTTP] ends in the
    index-out-of-range panic of line 172 exactly when the request path
    holds no slash: the empty path and the paths such as an asterisk. *)
Theorem serve_index_fault_iff (router : Router) (trees : gmap str Tree) (tree : Tree)
    (r : Request) (log : Log) :
  trees !! Method r = Some tree ->
  Find tree (URLPath r) 0 = [] ->
  (serve router trees r log).2 = Panic (ErrIndexOutOfRange 172) <-> "/"%char ∉ URLPath r.
Proof.
  intros Hm He. unfold serve. rewrite Hm, He. cbn [exact_block].
  destruct (Split "/" (URLPath r) !! 1) as [prefix|] eqn:Es.
  - split.
    + destruct (try_candidates _ _ _ _) as [out|] eqn:Et.
      * intros H. by apply try_candidates_not_172 in Et.
      * intros H. by apply run_user_Panic_handler in H as [v Hv].
    + intros Hn. apply Split_lookup_1 in Hn. congruence.
  - split; [|done]. intros _. by apply Split_lookup_1.
Qed.

Lemma serve_index_fault_iff_witness :
  ({[ "GET" := NewTree ]} : gmap str Tree) !! Method (get "*") = Some NewTree ∧
  Find NewTree (URLPath (get "*")) 0 = [] ∧
  ("/"%char ∉ URLPath (get "*")) ∧
  (serve New.1 {[ "GET" := NewTree ]} (get "*") []).2 = Panic (ErrIndexOutOfRange 172).
Proof.
  assert (Hm : ({[ "GET" := NewTree ]} : gmap str Tree) !! Method (get "*") = Some NewTree)
    by (vm_compute; reflexivity).
  assert (Hn : "/"%char ∉ URLPath (get "*"))
    by (apply (bool_decide_unpack _); vm_compute; reflexivity).
  split; [exact Hm|]. split; [reflexivity|]. split; [exact Hn|].
  exact (proj2 (serve_index_fault_iff New.1 {[ "GET" := NewTree ]} NewTree (get "*") []
                  Hm eq_refl) Hn).
Defined.

(** ** Reading the parameters *)

Lemma params_read_back (m : paramsMapType) (r : Request) (toks : list tok) : ∀ vals,
  ok_vals toks vals = true ->
  (∀ j n v, names_of toks !! j = Some n -> vals !! j = Some v -> m !! n = Some v) ->
  Forall2 (fun t seg => ∀ rest, t = Par rest ->
                        GetParam (WithParams r m) (par_name rest) = seg)
          toks (inst_segs toks vals).
Proof.
  induction toks as [|[l|rest] ts IH]; intros vals; cbn [ok_vals inst_segs names_of].
  - intros _ _. constructor.
  - intros Hok Hm. constructor; [done|by apply IH].
  - destruct vals as [|v vs]; [done|]. intros [_ Hok]%andb_true_iff Hm. constructor.
    + intros ? [= <-]. unfold GetParam, GetAllParams, WithParams. simpl.
      by rewrite (Hm 0 (par_name rest) v eq_refl eq_refl).
    + apply IH; [done|]. intros j n v' Hn Hv. by apply (Hm (S j)).
Qed.

(** X12: what a handler reads.  After a match of a route of plain
    static segments and colon parameters with distinct names, [GetParam]
    gives, for the name of every parameter, the segment of the request
    path at the place of the parameter. *)
Theorem GetParam_reads_segment (toks : list tok) (requestUrl : str) (m : paramsMapType)
    (r : Request) :
  forallb good_tok toks = true ->
  NoDup (names_of toks) ->
  matchAndParse requestUrl (path_of toks) = Ok (Some m) ->
  ∃ segs, Split "/" requestUrl = [] :: segs
          ∧ Forall2 (fun t seg => ∀ rest, t = Par rest ->
                                  GetParam (WithParams r m) (par_name rest) = seg)
                    toks segs.
Proof.
  intros Hg Hnd (vals & Hok & -> & ->)%simple_route_sound; [|done].
  exists (inst_segs toks vals). split.
  - unfold inst. apply Split_slash_flat. by apply inst_segs_no_slash.
  - apply params_read_back; [done|].
    intros j n v Hn Hv. unfold bind_all. by apply (fold_insert_lookup _ _ _ j).
Qed.

Lemma GetParam_reads_segment_witness :
  forallb good_tok [Lit "users"; Par "id"; Par "name"] = true ∧
  NoDup (names_of [Lit "users"; Par "id"; Par "name"]) ∧
  matchAndParse "/users/42/bob" "/users/:id/:name"
  = Ok (Some {[ "id" := "42"; "name" := "bob" ]}) ∧
  ∃ segs, Split "/" "/users/42/bob" = [] :: segs
          ∧ Forall2 (fun t seg => ∀ rest, t = Par rest ->
               GetParam (WithParams (get "/users/42/bob") {[ "id" := "42"; "name" := "bob" ]})
                        (par_name rest) = seg)
               [Lit "users"; Par "id"; Par "name"] segs.
Proof.
  assert (Hnd : NoDup (names_of [Lit "users"; Par "id"; Par "name"])).
  { apply (bool_decide_unpack _). vm_compute. reflexivity. }
  assert (Hm : matchAndParse "/users/42/bob" (path_of [Lit "users"; Par "id"; Par "name"])
               = Ok (Some {[ "id" := "42"; "name" := "bob" ]})) by (vm_compute; reflexivity).
  split; [reflexivity|]. split; [exact Hnd|]. split; [exact Hm|].
  exact (GetParam_reads_segment [Lit "users"; Par "id"; Par "name"] "/users/42/bob"
           {[ "id" := "42"; "name" := "bob" ]} (get "/users/42/bob") eq_refl Hnd Hm).
Defined.

(** ** A name used twice *)

Lemma fold_insert_other (names vals : list str) : ∀ (m0 : paramsMapType) n,
  n ∉ names ->
  fold_left (fun m p => <[p.1 := p.2]> m) (zip names vals) m0 !! n = m0 !! n.
Proof.
  revert vals. induction names as [|n0 ns IH]; intros [|v0 vs] m0 n Hn; simpl; try done.
  apply not_elem_of_cons in Hn as [Hne Hn]. rewrite IH by done.
  by rewrite lookup_insert_ne.
Qed.

Lemma fold_insert_lookup_last (names vals : list str) : ∀ (m0 : paramsMapType) j n v,
  names !! j = Some n -> vals !! j = Some v ->
  (∀ j', j < j' -> names !! j' ≠ Some n) ->
  fold_left (fun m p => <[p.1 := p.2]> m) (zip names vals) m0 !! n = Some v.
Proof.
  revert vals. induction names as [|n0 ns IH]; intros vals m0 j n v Hn Hv Hlast.
  { by destruct j. }
  destruct vals as [|v0 vs]; [by destruct j|].
  destruct j as [|j]; simpl in *.
  - injection Hn as ->. injection Hv as ->.
    rewrite fold_insert_other; [apply lookup_insert_eq|].
    intros (j' & Hj')%list_elem_of_lookup. apply (Hlast (S j')); [lia|done].
  - apply (IH vs _ j); [done|done|]. intros j' Hlt. apply (Hlast (S j')). lia.
Qed.

(** X14: a route that uses a parameter name more than once.  The match
    binds the name to the value of the last segment that carries it:
    that value is what [GetParam] gives, the earlier ones are lost. *)
Theorem GetParam_last_binding (toks : list tok) (requestUrl : str) (m : paramsMapType)
    (r : Request) :
  forallb good_tok toks = true ->
  matchAndParse requestUrl (path_of toks) = Ok (Some m) ->
  ∃ vals, ok_vals toks vals = true ∧ requestUrl = inst toks vals ∧
    ∀ j n v, names_of toks !! j = Some n -> vals !! j = Some v ->
             (∀ j', j < j' -> names_of toks !! j' ≠ Some n) ->
             GetParam (WithParams r m) n = v.
Proof.
  intros Hg (vals & Hok & -> & ->)%simple_route_sound; [|done].
  exists vals. split; [done|]. split; [done|].
  intros j n v Hn Hv Hlast. unfold GetParam, GetAllParams, WithParams, bind_all. simpl.
  by rewrite (fold_insert_lookup_last _ _ _ j n v Hn Hv Hlast).
Qed.

Lemma GetParam_last_binding_witness :
  forallb good_tok [Par "a"; Par "a"] = true ∧
  matchAndParse "/x/y" "/:a/:a" = Ok (Some {[ "a" := "y" ]}) ∧
  ∃ vals, ok_vals [Par "a"; Par "a"] vals = true ∧ "/x/y" = inst [Par "a"; Par "a"] vals ∧
    ∀ j n v, names_of [Par "a"; Par "a"] !! j = Some n -> vals !! j = Some v ->
             (∀ j', j < j' -> names_of [Par "a"; Par "a"] !! j' ≠ Some n) ->
             GetParam (WithParams (get "/x/y") {[ "a" := "y" ]}) n = v.
Proof.
  assert (Hm : matchAndParse "/x/y" (path_of [Par "a"; Par "a"]) = Ok (Some {[ "a" := "y" ]}))
    by (vm_compute; reflexivity).
  split; [reflexivity|]. split; [exact Hm|].
  exact (GetParam_last_binding [Par "a"; Par "a"] "/x/y" {[ "a" := "y" ]} (get "/x/y")
           eq_refl Hm).
Defined.

(** ** A route without a handler *)

(** X15: a node found by the exact lookup that has no handler ends the
    dispatch: the request is answered by the not-found handler and no
    candidate is tried, since the lookup gave a node. *)
Theorem serve_nil_handler (router : Router) (trees : gmap str Tree) (tree : Tree)
    (r : Request) (node : Node) (rest : list Node) (log : Log) :
  trees !! Method r = Some tree ->
  Find tree (URLPath r) 0 = node :: rest ->
  node_handle node = None ->
  serve router trees r log = run_user r (HandleNotFound router r (middleware router)) log.
Proof.
  intros Hm He Hh. unfold serve. rewrite Hm, He. cbn [exact_block]. by rewrite Hh.
Qed.

Lemma serve_nil_handler_witness :
  ∃ trees tree,
    register_all ∅ [MkReg New.1 "GET" "/x" None] = Ok trees ∧
    trees !! "GET" = Some tree ∧
    Find tree "/x" 0 = [MkNode "/x" None []] ∧
    serve New.1 trees (get "/x") [] = (get "/x", ["404 page not found"], Ok tt).
Proof.
  eexists. eexists. split; [vm_compute; reflexivity|].
  split; [vm_compute; reflexivity|].
  assert (He : Find (MkTree {[ "/x" := MkNode "/x" None [] ]}
                            {[ "x" := [MkNode "/x" None []] ]}) "/x" 0
               = [MkNode "/x" None []]) by (vm_compute; reflexivity).
  split; [exact He|].
  refine (serve_nil_handler New.1 _ _ (get "/x") (MkNode "/x" None []) [] [] _ He eq_refl).
  vm_compute. reflexivity.
Defined.

(** ** Groups *)

(** X16: a route registered through a group is stored under the prefix
    of the group, a slash and the path; its segments are the segments of
    the prefix followed by the segments of the path, a slash doubled at
    the joint is an empty segment, which the matcher skips.  A group
    with the empty prefix stores the path as it is. *)
Theorem Group_route_segments (router : Router) (prefix path : str) (c : ascii) :
  segments (routed_path (Group router prefix) path) = segments prefix ++ segments path
  ∧ routed_path (Group router (c :: prefix)) path = (c :: prefix) ++ "/" ++ path
  ∧ routed_path (Group router []) path = path.
Proof.
  unfold routed_path, Group, segments. simpl. split; [|done].
  destruct (decide (prefix = [])) as [->|Hne]; [done|].
  change (prefix ++ "/" ++ path) with (prefix ++ ("/"%char :: path)).
  by rewrite Split_app, filter_app.
Qed.

(** ** Routes with empty segments *)

Lemma matchAndParse_same_segments (requestUrl path1 path2 : str) :
  segments path1 = segments path2 ->
  matchAndParse requestUrl path1 = matchAndParse requestUrl path2.
Proof.
  unfold segments, matchAndParse. intros H.
  by rewrite (build_pattern_segments _ (Split "/" path1)), H, <- build_pattern_segments.
Qed.

Lemma good_tok_seg_nonempty (t : tok) : good_tok t = true -> tok_seg t ≠ [].
Proof.
  destruct t as [l|rest]; simpl; [|done].
  intros [[Hne _]%andb_true_iff _]%andb_true_iff.
  apply negb_true_iff, bool_decide_eq_false in Hne. done.
Qed.

Lemma filter_nonempty_all (l : list str) :
  Forall (fun s => s ≠ []) l -> filter (fun seg : str => seg ≠ []) l = l.
Proof.
  induction 1 as [|s l Hs _ IH]; [done|]. by rewrite filter_cons_True, IH.
Qed.

Lemma segments_path_of (toks : list tok) :
  forallb good_tok toks = true -> segments (path_of toks) = map tok_seg toks.
Proof.
  intros Hg. unfold segments. rewrite (Split_path_of _ Hg).
  rewrite filter_cons_False by (by intros ?). apply filter_nonempty_all.
  apply Forall_map, Forall_forall. intros t Ht. apply good_tok_seg_nonempty.
  rewrite forallb_forall in Hg. apply Hg. by apply list_elem_of_In.
Qed.

Lemma class_plus_nonempty rs (v : str) : class_plus rs v = true -> v ≠ [].
Proof.
  unfold class_plus. intros [Hne _]%andb_true_iff.
  by apply negb_true_iff, bool_decide_eq_false in Hne.
Qed.

Lemma inst_segs_nonempty (toks : list tok) : ∀ vals,
  forallb good_tok toks = true -> ok_vals toks vals = true ->
  Forall (fun s => s ≠ []) (inst_segs toks vals).
Proof.
  induction toks as [|[l|rest] ts IH]; intros vals; simpl; [by constructor| |].
  - intros [Hl Hts]%andb_true_iff Hok. constructor; [|by apply IH].
    by apply (good_tok_seg_nonempty (Lit l)).
  - destruct vals as [|v vs]; [done|].
    intros [_ Hts]%andb_true_iff [Hv Hok]%andb_true_iff.
    constructor; [by apply (class_plus_nonempty (par_class rest))|by apply IH].
Qed.

Lemma segments_inst (toks : list tok) (vals : list str) :
  forallb good_tok toks = true -> ok_vals toks vals = true ->
  segments (inst toks vals) = inst_segs toks vals.
Proof.
  intros Hg Hok. unfold segments, inst.
  rewrite Split_slash_flat by (by apply inst_segs_no_slash).
  rewrite filter_cons_False by (by intros ?).
  by apply filter_nonempty_all, inst_segs_nonempty.
Qed.

Lemma Split_Join (a : str) (l : list str) :
  Forall (fun s => no_slash s = true) (a :: l) -> Split "/" (Join "/" (a :: l)) = a :: l.
Proof.
  intros H. inversion H; subst. rewrite Join_cons. by apply Split_slash_joined.
Qed.

(** Substituting in a route with empty segments: the empty segments
    stay, the others become the segments of the request. *)
Lemma substitute_all_segments (m : paramsMapType) (L : list str) : ∀ toks vals,
  filter (fun seg : str => seg ≠ []) L = map tok_seg toks ->
  forallb good_tok toks = true -> ok_vals toks vals = true ->
  (∀ j n v, names_of toks !! j = Some n -> vals !! j = Some v -> m !! n = Some v) ->
  filter (fun seg : str => seg ≠ [])
    (map (fun seg => match segment_name seg with
                     | Some name => default [] (m !! name)
                     | None => seg
                     end) L)
  = inst_segs toks vals
  ∧ Forall (fun s => no_slash s = true)
      (map (fun seg => match segment_name seg with
                       | Some name => default [] (m !! name)
                       | None => seg
                       end) L).
Proof.
  induction L as [|s L IH]; intros toks vals HL Hg Hok Hm.
  - destruct toks as [|t ts]; [|done]. destruct vals; [|done]. by split; [|constructor].
  - destruct (decide (s = [])) as [->|Hne].
    + rewrite filter_cons_False in HL by (by intros ?).
      destruct (IH toks vals HL Hg Hok Hm) as [H1 H2]. cbn [map].
      rewrite segment_name_nil. split; [|by constructor].
      by rewrite filter_cons_False by (by intros ?).
    + rewrite filter_cons_True in HL by done.
      destruct toks as [|t ts]; [done|]. cbn [map] in HL. injection HL as -> HL.
      cbn [forallb] in Hg. apply andb_true_iff in Hg as [Ht Hts].
      destruct t as [l|rest]; cbn [tok_seg ok_vals inst_segs names_of map] in *.
      * destruct (IH ts vals HL Hts Hok Hm) as [H1 H2].
        rewrite (segment_name_Lit l Ht). split.
        -- by rewrite filter_cons_True, H1 by done.
        -- constructor; [by apply (good_tok_no_slash (Lit l))|done].
      * destruct vals as [|v vs]; [done|]. apply andb_true_iff in Hok as [Hv Hok].
        destruct (IH ts vs HL Hts Hok) as [H1 H2].
        { intros j n v' Hn Hv'. by apply (Hm (S j)). }
        rewrite segment_name_Par, (Hm 0 (par_name rest) v eq_refl eq_refl). simpl.
        split.
        -- rewrite filter_cons_True by (by apply (class_plus_nonempty (par_class rest))).
           by rewrite H1.
        -- constructor; [by apply (class_plus_no_slash rest)|done].
Qed.

(** A route with a slash at its end gives back a path with that
    slash, which the request path does not have. *)
Example substitute_trailing_slash :
  matchAndParse "/users/42" "/users/:id/" = Ok (Some {[ "id" := "42" ]}) ∧
  substitute {[ "id" := "42" ]} "/users/:id/" = "/users/42/".
Proof. split; vm_compute; reflexivity. Qed.

(** C9, amended.  The route path has, as its non-empty segments and in
    this order, colon parameters with pairwise distinct names (a colon
    and any text without a slash, the name being the text up to the next
    colon) and static segments that do not begin with a colon and are
    made of bytes below 128 other than the slash and the characters of
    the expression syntax.  On every request path the matcher accepts,
    putting the bound values back in the place of the parameter segments
    gives a path with the segments of the request path; it gives the
    request path itself when the route path is written with one slash
    before each segment and no other slash. *)
Theorem substitute_roundtrip (toks : list tok) (requestUrl path : str) (m : paramsMapType) :
  forallb good_tok toks = true ->
  NoDup (names_of toks) ->
  segments path = map tok_seg toks ->
  matchAndParse requestUrl path = Ok (Some m) ->
  segments (substitute m path) = segments requestUrl
  ∧ (path = path_of toks -> substitute m path = requestUrl).
Proof.
  intros Hg Hnd Hsegs Hmatch.
  rewrite (matchAndParse_same_segments requestUrl path (path_of toks)) in Hmatch
    by (by rewrite segments_path_of).
  apply simple_route_sound in Hmatch as (vals & Hok & -> & ->); [|done].
  assert (Hm : ∀ j n v, names_of toks !! j = Some n -> vals !! j = Some v ->
                        bind_all (names_of toks) vals !! n = Some v).
  { intros j n v Hn Hv. unfold bind_all. by apply (fold_insert_lookup _ _ _ j). }
  split.
  - rewrite (segments_inst _ _ Hg Hok).
    destruct (substitute_all_segments _ (Split "/" path) toks vals Hsegs Hg Hok Hm)
      as [H1 H2].
    unfold segments at 1. unfold substitute.
    pose proof (Split_nonempty "/" path) as Hne.
    destruct (Split "/" path) as [|a L]; [done|]. cbn [map] in *.
    by rewrite Split_Join.
  - intros ->. unfold substitute. rewrite (Split_path_of _ Hg).
    cbn [map]. rewrite segment_name_nil, Join_cons. cbn [app].
    by rewrite (substitute_segs _ toks vals Hg Hok).
Qed.

Lemma substitute_roundtrip_witness :
  forallb good_tok [Lit "users"; Par "id"; Par "name"] = true ∧
  NoDup (names_of [Lit "users"; Par "id"; Par "name"]) ∧
  segments "/users/:id/:name" = map tok_seg [Lit "users"; Par "id"; Par "name"] ∧
  matchAndParse "/users/42/bob" "/users/:id/:name"
  = Ok (Some {[ "id" := "42"; "name" := "bob" ]}) ∧
  segments (substitute {[ "id" := "42"; "name" := "bob" ]} "/users/:id/:name")
  = segments "/users/42/bob" ∧
  substitute {[ "id" := "42"; "name" := "bob" ]} "/users/:id/:name" = "/users/42/bob".
Proof.
  assert (Hnd : NoDup (names_of [Lit "users"; Par "id"; Par "name"])).
  { apply (bool_decide_unpack _). vm_compute. reflexivity. }
  assert (Hm : matchAndParse "/users/42/bob" "/users/:id/:name"
               = Ok (Some {[ "id" := "42"; "name" := "bob" ]})) by (vm_compute; reflexivity).
  split; [reflexivity|]. split; [exact Hnd|]. split; [reflexivity|]. split; [exact Hm|].
  pose proof (substitute_roundtrip [Lit "users"; Par "id"; Par "name"] "/users/42/bob"
                "/users/:id/:name" {[ "id" := "42"; "name" := "bob" ]}
                eq_refl Hnd eq_refl Hm) as [H1 H2].
  split; [exact H1|exact (H2 eq_refl)].
Defined.

(** ** Appending middleware *)

Lemma compose_app (ms1 ms2 : list MiddlewareType) (h : HandlerFunc) :
  compose (ms1 ++ ms2) h = compose ms2 (compose ms1 h).
Proof. unfold compose. apply fold_left_app. Qed.

(** X2: right after [Use] the middleware of the router is its former
    middleware followed by the arguments of the call, in their order,
    and nothing else of the router has changed; the chain that [handle]
    runs is then the former chain wrapped by the first argument, that by
    the second, and so on, the last argument outermost. *)
Theorem Use_appends_in_order (router : Router) (mws : list MiddlewareType) :
  middleware (Use router mws) = middleware router ++ mws
  ∧ prefix (Use router mws) = prefix router
  ∧ notFound (Use router mws) = notFound router
  ∧ PanicHandler (Use router mws) = PanicHandler router
  ∧ (∀ (r : Request) (h : HandlerFunc),
       handle r h (middleware (Use router mws))
       = compose mws (compose (middleware router) h) r)
  ∧ (∀ (a b c : str) (h : str) (r : Request) (log : Log),
       handle r (say h)
              (middleware (Use (Use New.1 [tracing a]) [tracing b; tracing c])) log
       = (log ++ ["enter " ++ c; "enter " ++ b; "enter " ++ a; h;
                  "leave " ++ a; "leave " ++ b; "leave " ++ c], None)).
Proof.
  assert (Hmw : ∀ rt ms, middleware (Use rt ms) = middleware rt ++ ms).
  { intros rt [|x ms]; simpl; [by rewrite app_nil_r|done]. }
  split; [apply Hmw|]. split; [by destruct mws|]. split; [by destruct mws|].
  split; [by destruct mws|]. split.
  - intros r h. unfold handle. by rewrite Hmw, compose_app.
  - intros a b c h r log. unfold handle. rewrite !Hmw, !compose_app. simpl.
    unfold tracing, say. by rewrite <- !app_assoc.
Qed.

(** ** The deferred function *)

(** X10: the deferred function of [ServeHTTP], with a [PanicHandler]
    installed.  When the body panics, the handler is called with the
    value of the panic, with the request variable as the body left it,
    which carries the parameters once a candidate matched, and with the
    response written so far; [ServeHTTP] then ends as the handler does.
    When the body does not panic the handler is not called.  So with a
    handler that never panics [ServeHTTP] never panics. *)
Theorem ServeHTTP_recovers (router : Router) (trees : gmap str Tree) (r r' : Request)
    (log log' : Log) (res : Res unit) (ph : Request -> Fault -> UserCode) :
  PanicHandler router = Some ph ->
  serve router trees r log = (r', log', res) ->
  ServeHTTP router trees r log
  = match res with
    | Panic err =>
        ((ph r' err log').1,
         match (ph r' err log').2 with
         | Some v => Panic (ErrHandler v)
         | None => Ok tt
         end)
    | _ => (log', res)
    end
  ∧ ((∀ r1 err log1, (ph r1 err log1).2 = None) ->
     ∀ f, (ServeHTTP router trees r log).2 ≠ Panic f).
Proof.
  intros Hph Hs.
  assert (ServeHTTP router trees r log
          = match res with
            | Panic err =>
                ((ph r' err log').1,
                 match (ph r' err log').2 with
                 | Some v => Panic (ErrHandler v)
                 | None => Ok tt
                 end)
            | _ => (log', res)
            end) as H.
  { unfold ServeHTTP. rewrite Hs, Hph. destruct res as [[]|err|]; [done| |done].
    by destruct (ph r' err log') as [log'' p]. }
  split; [exact H|]. intros Hquiet f. rewrite H.
  destruct res as [[]|err|]; [done| |done]. simpl. by rewrite Hquiet.
Qed.

Lemma ServeHTTP_recovers_witness :
  ∃ trees,
    register_all ∅ [MkReg (Use New.1 [tracing "A"]) "GET" "/users/:id"
                          (Some (failing "boom"))] = Ok trees ∧
    PanicHandler (MkRouter [] [] None (Some reporting)) = Some reporting ∧
    serve (MkRouter [] [] None (Some reporting)) trees (get "/users/42") []
    = (WithParams (get "/users/42") {[ "id" := "42" ]}, ["enter A"], Panic (ErrHandler "boom")) ∧
    ServeHTTP (MkRouter [] [] None (Some reporting)) trees (get "/users/42") []
    = (["enter A"; "boom"; "42"], Ok tt) ∧
    (∀ f, (ServeHTTP (MkRouter [] [] None (Some reporting)) trees (get "/users/42") []).2
          ≠ Panic f).
Proof.
  eexists. split; [vm_compute; reflexivity|].
  split; [reflexivity|].
  match goal with |- serve ?rt ?tr ?rq ?lg = ?out ∧ _ =>
    assert (Hs : serve rt tr rq lg = out) by (vm_compute; reflexivity);
    pose proof (ServeHTTP_recovers rt tr rq _ lg _ _ reporting eq_refl Hs) as [H1 H2]
  end.
  split; [exact Hs|]. split; [exact H1|]. apply H2. reflexivity.
Defined.

(** ** The exported test *)

(** X13: [Match] on a route whose non-empty segments are, in order,
    static segments, not beginning with a colon and made of bytes below
    128 other than the slash and the characters of the expression
    syntax, and colon parameters; the route path may have empty segments
    besides.  [Match] neither panics nor fails, and it answers true
    exactly for the request paths that consist, for each of these
    segments in order, of a slash followed by the static segment itself
    or, for a parameter, by one or more characters of its class.  A
    request path with a slash at its end is therefore never matched. *)
Theorem Match_simple_route (toks : list tok) (requestUrl path : str) :
  forallb good_tok toks = true ->
  segments path = map tok_seg toks ->
  (∃ b, Match requestUrl path = Ok b) ∧
  (Match requestUrl path = Ok true
   <-> ∃ vals, ok_vals toks vals = true ∧ requestUrl = inst toks vals).
Proof.
  intros Hg Hsegs. unfold Match.
  rewrite (matchAndParse_same_segments requestUrl path (path_of toks))
    by (by rewrite segments_path_of).
  destruct (simple_route_total requestUrl toks Hg) as [res Hres]. rewrite Hres.
  change (mbind ?f (Ok ?a)) with (f a). cbv beta. split; [by eexists|].
  split.
  - intros [= Hb]. apply bool_decide_eq_true in Hb as [m ->].
    apply simple_route_sound in Hres as (vals & Hok & Heq & _); [|done]. by exists vals.
  - intros (vals & Hok & ->).
    rewrite (simple_route_complete _ _ Hg Hok) in Hres. by injection Hres as <-.
Qed.

Lemma Match_simple_route_witness :
  forallb good_tok [Lit "users"; Par "id"] = true ∧
  segments "/users/:id/" = map tok_seg [Lit "users"; Par "id"] ∧
  Match "/users/42" "/users/:id/" = Ok true ∧
  Match "/users/42/" "/users/:id/" = Ok false ∧
  ∃ vals, ok_vals [Lit "users"; Par "id"] vals = true
          ∧ "/users/42" = inst [Lit "users"; Par "id"] vals.
Proof.
  assert (Hm : Match "/users/42" "/users/:id/" = Ok true) by (vm_compute; reflexivity).
  split; [reflexivity|]. split; [reflexivity|]. split; [exact Hm|].
  split; [vm_compute; reflexivity|].
  exact (proj1 (proj2 (Match_simple_route [Lit "users"; Par "id"] "/users/42" "/users/:id/"
                         eq_refl eq_refl)) Hm).
Defined.
